(** * MatchPlayer: a shallow embedding of [src/models/match.player.ts]

    The file models one player's state in the two-player naval game: the
    board (ships expanded into cells), the attacks the player has made, the
    resolution of incoming attacks, the opponent-facing projection and the
    snapshot used for storage.

    Modelling choices, stated once:
    - a JavaScript object used as a map (the board's [positions], the ship
      layout) is an association list in key-enumeration order, because
      [for ... in] and [Object.values] visit the keys in that order;
    - ship records, cells and result records are values: the class writes
      to them only through the board that owns them (the snapshot and the
      opponent view hand out references, and the class never writes through
      those);
    - attack payloads are created by the caller and are reachable both from
      the stored attack record and from every copy of that record, so they
      live in a store ([gmap loc AttackDataPayload]) and records hold
      locations;
    - numbers that the game logic compares (coordinates, timestamps) are
      integers; the score is a JavaScript value, because the constructor
      inspects it with [isNaN]. *)

From stdpp Require Import base list sorting strings gmap.

(** ** Data model *)

(** Modelled from the spec: [CellPosition] is declared in [@app/game/types],
    which is not part of the sources; the spec gives it as a pair of integer
    coordinates compared by value. *)
Definition CellPosition : Type := Z * Z.

(** Modelled from the spec: [isSameOrigin] lives in [@app/utils], which is not
    part of the sources; the spec asks for exact, value-based equality. *)
Definition isSameOrigin (a b : CellPosition) : bool :=
  Z.eqb a.1 b.1 && Z.eqb a.2 b.2.

(** Modelled from the spec: [Orientation] is declared in [@app/game/types]. *)
Inductive Orientation := horizontal | vertical.

(** [ShipType] is a string enum in the source; at run time the keys of the
    board are its strings. *)
Definition ShipType : Type := string.

(** type StoredShipDataCell = { origin; hit; type } *)
Record StoredShipDataCell := mkCell {
  cell_origin : CellPosition;
  cell_hit : bool;
  cell_type : ShipType
}.

(** type StoredShipData = { sunk; type; origin; orientation; cells } *)
Record StoredShipData := mkShip {
  ship_sunk : bool;
  ship_type : ShipType;
  ship_origin : CellPosition;
  ship_orientation : Orientation;
  ship_cells : list StoredShipDataCell
}.

(** type PlayerPositionData = { [key in ShipType]: StoredShipData } *)
Definition PlayerPositionData : Type := list (ShipType * StoredShipData).

(** type MatchPlayerBoardData = { valid; positions } *)
Record MatchPlayerBoardData := mkBoard {
  board_valid : bool;
  board_positions : PlayerPositionData
}.

(** One entry of [ShipPositionData]: the origin and the orientation of a
    ship, and the [sunk] property the object may carry besides. The declared
    type asks for the first two only, but an object with more properties is
    accepted where it is expected (a stored ship handed back as a placement
    is one), and [createPositionDataWithCells] spreads the whole object into
    the ship it stores. [None] is an object without a [sunk] property. The
    spread's other properties are either overwritten ([type], [cells]) or
    never read by this class. *)
Record ShipPlacement := mkPlacement {
  place_origin : CellPosition;
  place_orientation : Orientation;
  place_sunk : option bool
}.

Definition ShipPositionData : Type := list (ShipType * ShipPlacement).

(** The prediction attached to an attack by the client is opaque to this
    class: it is only ever deleted. *)
Definition Prediction : Type := Z.

(** [AttackDataPayload] as far as this class reads it: the [origin] and the
    optional [prediction]. *)
Record AttackDataPayload := mkPayload {
  atk_origin : CellPosition;
  atk_prediction : option Prediction
}.

(** [AttackResult]: the miss object [{ hit: false, origin }] or the hit object
    [{ ...hitCell, destroyed }], whose fields are those of the cell plus
    [destroyed]. *)
Record AttackResult := mkResult {
  res_hit : bool;
  res_origin : CellPosition;
  res_type : option ShipType;
  res_destroyed : option bool
}.

Definition loc : Type := nat.

(** type StoredAttackData = { ts; attack; result }; [attack] is a reference to
    the payload object. *)
Record StoredAttackData := mkAttack {
  sa_ts : Z;
  sa_attack : loc;
  sa_result : AttackResult
}.

(** JavaScript numbers, as far as the score needs them. Finite values are
    integers: the score is a count of points. *)
Inductive JsNumber := JsFinite (z : Z) | JsNaN | JsPosInf | JsNegInf.

(** The scalar values a [score] field can hold after [JSON.parse], or when it
    is absent. *)
Inductive JsValue :=
  | JsUndefined
  | JsNull
  | JsBool (b : bool)
  | JsNum (n : JsNumber).

(** The private fields of [MatchPlayer] together with the uuid kept by the
    base class [Model]. *)
Record MatchPlayer := mkPlayer {
  uuid : string;
  username : string;
  isAi : bool;
  match_ : string;
  score : JsValue;
  board : MatchPlayerBoardData;
  attacks : list StoredAttackData
}.

(** type MatchPlayerData *)
Record MatchPlayerData := mkData {
  d_uuid : string;
  d_username : string;
  d_score : JsValue;
  d_isAi : bool;
  d_match : string;
  d_board : MatchPlayerBoardData;
  d_attacks : list StoredAttackData
}.

(** The constructor's [opts]: [board] and [attacks] are optional. *)
Record MatchPlayerOpts := mkOpts {
  o_username : string;
  o_isAi : bool;
  o_uuid : string;
  o_match : string;
  o_score : JsValue;
  o_board : option MatchPlayerBoardData;
  o_attacks : option (list StoredAttackData)
}.

(** type OpponentPositionData / MatchOpponentData *)
Record OpponentPositionData := mkOppBoard {
  opp_valid : bool;
  opp_positions : list (ShipType * StoredShipData)
}.

Record MatchOpponentData := mkOpponent {
  od_username : string;
  od_attacks : list StoredAttackData;
  od_board : OpponentPositionData
}.

(** The store of payload objects. *)
Abbreviation heap := (gmap loc AttackDataPayload).

(** ** JavaScript primitives used by the class *)

(** [obj[k] = v] on an object: an existing key keeps its place in the
    enumeration order, a new key goes last. *)
Fixpoint obj_set {V : Type} (k : string) (v : V) (o : list (string * V))
  : list (string * V) :=
  match o with
  | [] => [(k, v)]
  | (k', v') :: o' =>
      if decide (k' = k) then (k, v) :: o' else (k', v') :: obj_set k v o'
  end.

(** [obj[k]] *)
Fixpoint obj_get {V : Type} (k : string) (o : list (string * V)) : option V :=
  match o with
  | [] => None
  | (k', v') :: o' => if decide (k' = k) then Some v' else obj_get k o'
  end.

(** [ToNumber] on the scalars above. *)
Definition ToNumber (v : JsValue) : JsNumber :=
  match v with
  | JsUndefined => JsNaN
  | JsNull => JsFinite 0
  | JsBool true => JsFinite 1
  | JsBool false => JsFinite 0
  | JsNum n => n
  end.

(** The global [isNaN]: convert, then test. *)
Definition isNaN (v : JsValue) : bool :=
  match ToNumber v with
  | JsNaN => true
  | _ => false
  end.

(** ** determineAttackResult *)

(** [ship.cells.reduce((_destroyed, v) => _destroyed && v.hit, true)] *)
Definition all_cells_hit (cells : list StoredShipDataCell) : bool :=
  foldl (λ (_destroyed : bool) v, _destroyed && cell_hit v) true cells.

(** The body of the [for (const key in positions)] loop. [None] means the loop
    ran to its end without returning. *)
Fixpoint determineAttackResult_loop (origin : CellPosition)
    (positions : PlayerPositionData)
  : option (AttackResult * PlayerPositionData) :=
  match positions with
  | [] => None
  | (key, ship) :: rest =>
      let next :=
        match determineAttackResult_loop origin rest with
        | Some (r, rest') => Some (r, (key, ship) :: rest')
        | None => None
        end in
      if negb (ship_sunk ship) then
        match list_find (λ c, isSameOrigin (cell_origin c) origin)
                        (ship_cells ship) with
        | Some (i, c) =>
            (* hitCell.hit = true *)
            let hitCell := mkCell (cell_origin c) true (cell_type c) in
            let cells' := <[i := hitCell]> (ship_cells ship) in
            let destroyed := all_cells_hit cells' in
            (* if (destroyed) ship.sunk = true *)
            let ship' :=
              mkShip (if destroyed then true else ship_sunk ship)
                     (ship_type ship) (ship_origin ship)
                     (ship_orientation ship) cells' in
            Some (mkResult (cell_hit hitCell) (cell_origin hitCell)
                           (Some (cell_type hitCell)) (Some destroyed),
                  (key, ship') :: rest)
        | None => next
        end
      else next
  end.

Definition miss (origin : CellPosition) : AttackResult :=
  mkResult false origin None None.

Definition set_positions (p : MatchPlayer) (positions : PlayerPositionData)
  : MatchPlayer :=
  mkPlayer (uuid p) (username p) (isAi p) (match_ p) (score p)
           (mkBoard (board_valid (board p)) positions) (attacks p).

Definition determineAttackResult (p : MatchPlayer) (atk : AttackDataPayload)
  : AttackResult * MatchPlayer :=
  let origin := atk_origin atk in
  match determineAttackResult_loop origin (board_positions (board p)) with
  | Some (r, positions') => (r, set_positions p positions')
  | None => (miss origin, p)
  end.

(** ** Queries and small mutators *)

Definition isAiPlayer (p : MatchPlayer) : bool := isAi p.

Definition getShotsFiredCount (p : MatchPlayer) : nat := length (attacks p).

Definition hasAttacked (p : MatchPlayer) : bool :=
  bool_decide (0 < length (attacks p)).

(** [!!this.attacks.find((a) => isSameOrigin(a.attack.origin, origin))]: the
    payload is read through the record's reference. *)
Definition hasAttackedLocation (p : MatchPlayer) (h : heap)
    (origin : CellPosition) : bool :=
  existsb (λ a, match h !! sa_attack a with
                | Some pl => isSameOrigin (atk_origin pl) origin
                | None => false
                end) (attacks p).

Definition getShipPositionData (p : MatchPlayer) : PlayerPositionData :=
  board_positions (board p).

Definition hasLockedValidShipPositions (p : MatchPlayer) : bool :=
  board_valid (board p).

Definition getUsername (p : MatchPlayer) : string := username p.
Definition getMatchInstanceUUID (p : MatchPlayer) : string := match_ p.
Definition getUUID (p : MatchPlayer) : string := uuid p.
Definition getScore (p : MatchPlayer) : JsValue := score p.

Definition setMatchInstanceUUID (p : MatchPlayer) (u : string) : MatchPlayer :=
  mkPlayer (uuid p) (username p) (isAi p) u (score p) (board p) (attacks p).

(** [recordAttackResult]: [this.attacks.push({ ts: Date.now(), attack, result })].
    The reading of the clock is the argument [now]. *)
Definition recordAttackResult (p : MatchPlayer) (attack : loc)
    (result : AttackResult) (now : Z) : MatchPlayer :=
  mkPlayer (uuid p) (username p) (isAi p) (match_ p) (score p) (board p)
           (attacks p ++ [mkAttack now attack result]).

(** ** getContinuousHitsCount *)

(** [Array.prototype.sort] with a comparator, modelled as a stable insertion
    sort: elements are taken from left to right and each goes in front of the
    first element it compares below. The language leaves the order open when
    the comparator never answers 0 for equal keys; the theorems below hold for
    whatever order equal timestamps end up in. *)
Fixpoint sort_insert {A : Type} (cmp : A → A → Z) (x : A) (l : list A)
  : list A :=
  match l with
  | [] => [x]
  | y :: l' =>
      if (cmp x y <? 0)%Z then x :: y :: l' else y :: sort_insert cmp x l'
  end.

Definition array_sort {A : Type} (cmp : A → A → Z) (l : list A) : list A :=
  foldl (λ sorted x, sort_insert cmp x sorted) [] l.

(** [(a, b) => (a.ts > b.ts ? -1 : 1)] *)
Definition most_recent_first (a b : StoredAttackData) : Z :=
  if (sa_ts b <? sa_ts a)%Z then (-1)%Z else 1%Z.

(** The counting loop: [count++] on a hit, [break] on a miss. *)
Fixpoint count_until_miss (l : list StoredAttackData) (count : nat) : nat :=
  match l with
  | [] => count
  | atk :: l' =>
      if res_hit (sa_result atk) then count_until_miss l' (S count)
      else count
  end.

Definition getContinuousHitsCount (p : MatchPlayer) : nat :=
  let attacksInTimeOrder := array_sort most_recent_first (attacks p) in
  count_until_miss attacksInTimeOrder 0.

(** ** toOpponentJSON and toJSON *)

(** [delete payload.prediction] *)
Definition delete_prediction (pl : AttackDataPayload) : AttackDataPayload :=
  mkPayload (atk_origin pl) None.

(** The callback of [this.attacks.map]: [atk = { ...a }] copies the three
    fields of the record (the copy holds the same payload reference), then
    [delete a.attack.prediction] updates the payload object in the store. *)
Fixpoint toOpponentJSON_attacks (l : list StoredAttackData) (h : heap)
  : list StoredAttackData * heap :=
  match l with
  | [] => ([], h)
  | a :: l' =>
      let atk := mkAttack (sa_ts a) (sa_attack a) (sa_result a) in
      let h1 := alter delete_prediction (sa_attack a) h in
      let '(copies, h2) := toOpponentJSON_attacks l' h1 in
      (atk :: copies, h2)
  end.

(** [ships.forEach(ship => { if (ship.sunk) board.positions[ship.type] = ship })],
    with [revealed] the content of [board.positions] so far. *)
Definition reveal_from (revealed : list (ShipType * StoredShipData))
    (ships : list StoredShipData) : list (ShipType * StoredShipData) :=
  foldl (λ revealed ship,
           if ship_sunk ship then obj_set (ship_type ship) ship revealed
           else revealed)
        revealed ships.

(** The loop runs over [Object.values(positions)], starting from the empty
    object. *)
Definition reveal_sunk (positions : PlayerPositionData)
  : list (ShipType * StoredShipData) :=
  reveal_from [] (positions.*2).

Definition toOpponentJSON (p : MatchPlayer) (h : heap)
  : MatchOpponentData * heap :=
  let board_view :=
    mkOppBoard (board_valid (board p)) (reveal_sunk (board_positions (board p))) in
  let '(copies, h') := toOpponentJSON_attacks (attacks p) h in
  (mkOpponent (username p) copies board_view, h').

Definition toJSON (p : MatchPlayer) : MatchPlayerData :=
  mkData (getUUID p) (username p) (score p) (isAi p)
         (getMatchInstanceUUID p) (board p) (attacks p).

(** ** Construction *)

Section Construction.

(** [ShipSize] (the table of ship sizes) and
    [getCellCoverageForOriginOrientationAndArea] are imported from
    [@app/game/types] and [@app/utils]; neither is part of the sources, so
    the construction code is parameterised by them. *)
Variable ShipSize : ShipType → nat.
Variable getCellCoverageForOriginOrientationAndArea :
  CellPosition → Orientation → nat → list CellPosition.

(** The callback of the reduce in [createPositionDataWithCells]: expand
    the cells of one ship and file the record
    [{ sunk: false, ...shipData, type, cells }] under its type. [sunk] comes
    before the spread, so it is false only when [shipData] has no [sunk] of
    its own; [type] and [cells] come after it and always win. *)
Definition place_ship (updated : PlayerPositionData)
    (entry : ShipType * ShipPlacement) : PlayerPositionData :=
  let '(type, shipData) := entry in
  let cells :=
    getCellCoverageForOriginOrientationAndArea
      (place_origin shipData) (place_orientation shipData) (ShipSize type) in
  obj_set type
    (mkShip (default false (place_sunk shipData)) type
            (place_origin shipData) (place_orientation shipData)
            ((λ origin, mkCell origin false type) <$> cells))
    updated.

(** [createPositionDataWithCells]: a reduce over [Object.keys(data)],
    starting from the empty object; the entries of the association list
    are the keys with [data[type]]. *)
Definition createPositionDataWithCells (data : ShipPositionData)
  : PlayerPositionData :=
  foldl place_ship [] data.

(** The constructor. [layout] is the value of [getRandomShipLayout()], read
    only when no board is supplied. *)
Definition new_MatchPlayer (opts : MatchPlayerOpts) (layout : ShipPositionData)
  : MatchPlayer :=
  mkPlayer (o_uuid opts) (o_username opts) (o_isAi opts) (o_match opts)
           (if isNaN (o_score opts) then JsNum (JsFinite 0) else o_score opts)
           (match o_board opts with
            | Some b => b
            | None => mkBoard false (createPositionDataWithCells layout)
            end)
           (default [] (o_attacks opts)).

(** A [MatchPlayerData] passed where the constructor expects its options. *)
Definition opts_of_data (data : MatchPlayerData) : MatchPlayerOpts :=
  mkOpts (d_username data) (d_isAi data) (d_uuid data) (d_match data)
         (d_score data) (Some (d_board data)) (Some (d_attacks data)).

(** [static from(data)]: [new MatchPlayer(data)]. The layout is not read on
    this path, the board being supplied. *)
Definition from (data : MatchPlayerData) : MatchPlayer :=
  new_MatchPlayer (opts_of_data data) [].

Definition setShipPositionData (p : MatchPlayer) (data : ShipPositionData)
    (valid : bool) : MatchPlayer :=
  mkPlayer (uuid p) (username p) (isAi p) (match_ p) (score p)
           (mkBoard valid (createPositionDataWithCells data)) (attacks p).

End Construction.

(** Modelled from the spec: the cell-coverage function of [@app/utils] is not
    part of the sources. The spec (Position Expander) asks for exactly [size]
    cells, starting at [origin] and extending along the x-axis when
    horizontal, along the y-axis when vertical, in increasing order. *)
Definition expandCells (origin : CellPosition) (orientation : Orientation)
    (size : nat) : list CellPosition :=
  (λ i : nat,
     match orientation with
     | horizontal => (origin.1 + Z.of_nat i, origin.2)%Z
     | vertical => (origin.1, origin.2 + Z.of_nat i)%Z
     end) <$> seq 0 size.

(** ** Completions

    No method of the class contains a [throw]; construction completes
    normally with the player it builds. *)
Inductive Completion (A : Type) :=
  | Normal (a : A)
  | InvalidState (reason : string).
Arguments Normal {A} a.
Arguments InvalidState {A} reason.

Definition run_new_MatchPlayer (ShipSize : ShipType → nat)
    (coverage : CellPosition → Orientation → nat → list CellPosition)
    (opts : MatchPlayerOpts) (layout : ShipPositionData)
  : Completion MatchPlayer :=
  Normal (new_MatchPlayer ShipSize coverage opts layout).

(** ** Properties of states *)

(** The flag of a ship agrees with its cells. *)
Definition ship_consistent (ship : StoredShipData) : Prop :=
  ship_sunk ship = forallb cell_hit (ship_cells ship).

Definition board_consistent (positions : PlayerPositionData) : Prop :=
  Forall (λ e, ship_consistent e.2) positions.

(** No cell of the ship lies at [origin]. *)
Definition ship_misses (origin : CellPosition) (ship : StoredShipData) : Prop :=
  Forall (λ c, isSameOrigin (cell_origin c) origin = false) (ship_cells ship).

(** The loop of [determineAttackResult] passes over the ship: it is sunk, or
    none of its cells lies at [origin]. *)
Definition ship_skipped (origin : CellPosition) (ship : StoredShipData) : Prop :=
  ship_sunk ship = true ∨ ship_misses origin ship.

(** The deep content of the attack history: every record with its payload
    object read from the store. *)
Definition stored_attacks (p : MatchPlayer) (h : heap)
  : list (Z * option AttackDataPayload * AttackResult) :=
  (λ a, (sa_ts a, h !! sa_attack a, sa_result a)) <$> attacks p.

(** A value is a valid number when it is a number other than NaN. *)
Definition valid_number (v : JsValue) : bool :=
  match v with
  | JsNum JsNaN => false
  | JsNum _ => true
  | _ => false
  end.

(** ** Reachable states *)

Definition State : Type := MatchPlayer * heap.

Section Reachability.

Variable ShipSize : ShipType → nat.
Variable coverage : CellPosition → Orientation → nat → list CellPosition.

(** One call of a method of the class. Queries and [toJSON] leave the state
    as it is. *)
Inductive step : State → State → Prop :=
  | step_setShipPositionData p h data valid :
      step (p, h) (setShipPositionData ShipSize coverage p data valid, h)
  | step_determineAttackResult p h atk :
      step (p, h) ((determineAttackResult p atk).2, h)
  | step_recordAttackResult p h attack result now :
      step (p, h) (recordAttackResult p attack result now, h)
  | step_setMatchInstanceUUID p h u :
      step (p, h) (setMatchInstanceUUID p u, h)
  | step_toOpponentJSON p h :
      step (p, h) (p, (toOpponentJSON p h).2).

(** States reached from a player constructed without a board. *)
Definition reachable (s : State) : Prop :=
  ∃ opts layout h0,
    o_board opts = None ∧
    rtc step (new_MatchPlayer ShipSize coverage opts layout, h0) s.

End Reachability.

(** A layout none of whose placements carries [sunk: true]: what a client
    sends, origins and orientations only, is such a layout. *)
Definition plain_layout (data : ShipPositionData) : Prop :=
  Forall (λ e, place_sunk e.2 ≠ Some true) data.

Section PlainReachability.

Variable ShipSize : ShipType → nat.
Variable coverage : CellPosition → Orientation → nat → list CellPosition.

(** The calls of [step], the board being initialised from plain layouts
    only. *)
Inductive plain_step : State → State → Prop :=
  | plain_setShipPositionData p h data valid :
      plain_layout data →
      plain_step (p, h) (setShipPositionData ShipSize coverage p data valid, h)
  | plain_determineAttackResult p h atk :
      plain_step (p, h) ((determineAttackResult p atk).2, h)
  | plain_recordAttackResult p h attack result now :
      plain_step (p, h) (recordAttackResult p attack result now, h)
  | plain_setMatchInstanceUUID p h u :
      plain_step (p, h) (setMatchInstanceUUID p u, h)
  | plain_toOpponentJSON p h :
      plain_step (p, h) (p, (toOpponentJSON p h).2).

Definition plain_reachable (s : State) : Prop :=
  ∃ opts layout h0,
    o_board opts = None ∧ plain_layout layout ∧
    rtc plain_step (new_MatchPlayer ShipSize coverage opts layout, h0) s.

End PlainReachability.

(** ** Concrete data used by the examples *)

Definition demo_sizes (t : ShipType) : nat :=
  if decide (t = "Battleship") then 4
  else if decide (t = "Submarine") then 3
  else 2.

Definition demo_opts (sc : JsValue) : MatchPlayerOpts :=
  mkOpts "East Voice" false "B03o3v2LvojQE9EHHBJfq" "q5-66RXuTEs-o0kzE_bTj"
         sc None None.

(** The scenario of the spec: one two-cell ship at (0,0), horizontal. *)
Definition demo_layout : ShipPositionData :=
  [("Destroyer", mkPlacement (0, 0)%Z horizontal None)].

Definition demo_player : MatchPlayer :=
  new_MatchPlayer demo_sizes expandCells (demo_opts (JsNum (JsFinite 0)))
                  demo_layout.

Definition attack_at (x y : Z) : AttackDataPayload := mkPayload (x, y) None.

(** A placement that carries [sunk: true], as a stored ship handed back to
    [setShipPositionData] does once the ship has been sunk. *)
Definition carried_sunk_layout : ShipPositionData :=
  [("Destroyer", mkPlacement (0, 0)%Z horizontal (Some true))].

Definition carried_sunk_player : MatchPlayer :=
  setShipPositionData demo_sizes expandCells demo_player carried_sunk_layout
                      true.

(** ** Auxiliary definitions for the statements *)

(** The cell after [hitCell.hit = true]. *)
Definition hit_cell (c : StoredShipDataCell) : StoredShipDataCell :=
  mkCell (cell_origin c) true (cell_type c).

(** The ship after a hit on the cell between [before] and [after]. *)
Definition hit_ship (ship : StoredShipData)
    (before : list StoredShipDataCell) (c : StoredShipDataCell)
    (after : list StoredShipDataCell) : StoredShipData :=
  let cells' := before ++ hit_cell c :: after in
  mkShip (forallb cell_hit cells') (ship_type ship) (ship_origin ship)
         (ship_orientation ship) cells'.

Definition hit_result (c : StoredShipDataCell) (destroyed : bool) : AttackResult :=
  mkResult true (cell_origin c) (Some (cell_type c)) (Some destroyed).

(** Two ships placed over the same cell (0,0): the layout is stored as it is,
    the class does not look for overlaps. The submarine has then been hit at
    (0,1) and (0,2). *)
Definition overlap_layout : ShipPositionData :=
  [("Destroyer", mkPlacement (0, 0)%Z horizontal None);
   ("Submarine", mkPlacement (0, 0)%Z vertical None)].

Definition overlap_player : MatchPlayer :=
  let p0 := setShipPositionData demo_sizes expandCells demo_player
                                overlap_layout false in
  let p1 := (determineAttackResult p0 (attack_at 0 1)).2 in
  (determineAttackResult p1 (attack_at 0 2)).2.

Definition overlap_submarine : StoredShipData :=
  mkShip false "Submarine" (0, 0)%Z vertical
         [mkCell (0, 0)%Z false "Submarine";
          mkCell (0, 1)%Z true "Submarine";
          mkCell (0, 2)%Z true "Submarine"].

(** The order the attacks are counted in: most recent first. *)
Definition recent_first (a b : StoredAttackData) : Prop :=
  (sa_ts b ≤ sa_ts a)%Z.

(** The maximal run of hits at the front of a list. *)
Fixpoint hit_run (l : list StoredAttackData) : list StoredAttackData :=
  match l with
  | [] => []
  | a :: l' => if res_hit (sa_result a) then a :: hit_run l' else []
  end.

(** What follows that run. *)
Fixpoint after_run (l : list StoredAttackData) : list StoredAttackData :=
  match l with
  | [] => []
  | a :: l' => if res_hit (sa_result a) then after_run l' else a :: l'
  end.

(** Strictly more recent. *)
Definition more_recent (a b : StoredAttackData) : Prop :=
  (sa_ts b < sa_ts a)%Z.

Definition with_attacks (l : list StoredAttackData) : MatchPlayer :=
  mkPlayer (uuid demo_player) (username demo_player) (isAi demo_player)
           (match_ demo_player) (score demo_player) (board demo_player) l.

Definition old_miss : StoredAttackData := mkAttack 100 0 (miss (5, 5)%Z).
Definition hit_one : StoredAttackData :=
  mkAttack 200 1 (mkResult true (0, 0)%Z (Some "Destroyer") (Some false)).
Definition hit_two : StoredAttackData :=
  mkAttack 300 2 (mkResult true (1, 0)%Z (Some "Destroyer") (Some true)).
Definition late_miss : StoredAttackData := mkAttack 400 3 (miss (7, 7)%Z).

Definition sunk_demo_player : MatchPlayer :=
  let p1 := (determineAttackResult demo_player (attack_at 0 0)).2 in
  (determineAttackResult p1 (attack_at 1 0)).2.

(** A player who has recorded one attack whose payload carries a prediction. *)
Definition predicting_player : MatchPlayer :=
  recordAttackResult demo_player 0 (miss (3, 3)%Z) 1000.

Definition predicting_heap : heap := {[ 0 := mkPayload (3, 3)%Z (Some 42%Z) ]}.

(** The record stored for a placement of [data]: filed under the
    placement's key, with the placement's own [sunk] if it has one and false
    otherwise, and one unhit cell per position of the coverage. *)
Definition placed_by (ShipSize : ShipType → nat)
    (coverage : CellPosition → Orientation → nat → list CellPosition)
    (data : ShipPositionData) (e : ShipType * StoredShipData) : Prop :=
  ∃ placement,
    (e.1, placement) ∈ data ∧
    e.2 = mkShip (default false (place_sunk placement)) e.1
                 (place_origin placement) (place_orientation placement)
                 ((λ origin, mkCell origin false e.1) <$>
                    coverage (place_origin placement)
                             (place_orientation placement) (ShipSize e.1)).

(** ** Definitions for the further properties *)

(** A series of incoming attacks, resolved one after the other. *)
Definition resolve_all (p : MatchPlayer) (atks : list AttackDataPayload)
  : MatchPlayer :=
  foldl (λ p atk, (determineAttackResult p atk).2) p atks.

(** The number of ships of a board that are marked sunk. *)
Definition sunk_count (positions : list (ShipType * StoredShipData)) : nat :=
  length (filter (λ e, ship_sunk e.2 = true) positions).

(** A cell stays where it is and a hit is never taken back. *)
Definition cell_evolves (c c' : StoredShipDataCell) : Prop :=
  cell_origin c' = cell_origin c ∧ cell_type c' = cell_type c ∧
  (cell_hit c = true → cell_hit c' = true).

(** An entry of the board keeps its key, its type and its geometry; its
    cells evolve and a sunk ship stays sunk. *)
Definition ship_evolves (e e' : ShipType * StoredShipData) : Prop :=
  e'.1 = e.1 ∧
  ship_type e'.2 = ship_type e.2 ∧
  ship_origin e'.2 = ship_origin e.2 ∧
  ship_orientation e'.2 = ship_orientation e.2 ∧
  Forall2 cell_evolves (ship_cells e.2) (ship_cells e'.2) ∧
  (ship_sunk e.2 = true → ship_sunk e'.2 = true).

(** The board is filed by ship type: the keys are distinct, and every ship
    and every one of its cells carries the key it is stored under. *)
Definition board_keyed (positions : PlayerPositionData) : Prop :=
  NoDup positions.*1 ∧
  Forall (λ e, ship_type e.2 = e.1 ∧
               Forall (λ c, cell_type c = e.1) (ship_cells e.2)) positions.

(** The ship record built for one placement. *)
Definition fresh_ship (ShipSize : ShipType → nat)
    (coverage : CellPosition → Orientation → nat → list CellPosition)
    (e : ShipType * ShipPlacement) : ShipType * StoredShipData :=
  (e.1, mkShip (default false (place_sunk e.2)) e.1
               (place_origin e.2) (place_orientation e.2)
               ((λ origin, mkCell origin false e.1) <$>
                  coverage (place_origin e.2) (place_orientation e.2)
                           (ShipSize e.1))).

(** The payload a stored attack refers to has the given origin. *)
Definition attack_is_at (h : heap) (origin : CellPosition)
    (a : StoredAttackData) : Prop :=
  ∃ pl, h !! sa_attack a = Some pl ∧ atk_origin pl = origin.

(** A series of incoming attacks with the results they return. *)
Fixpoint resolve_each (p : MatchPlayer) (atks : list AttackDataPayload)
  : list AttackResult * MatchPlayer :=
  match atks with
  | [] => ([], p)
  | atk :: rest =>
      let '(r, p1) := determineAttackResult p atk in
      let '(rs, p2) := resolve_each p1 rest in
      (r :: rs, p2)
  end.

(** The cells of a ship with exactly the cells at the origins [attacked] hit. *)
Definition mark_hits (attacked : list CellPosition)
    (cells : list StoredShipDataCell) : list StoredShipDataCell :=
  (λ c, mkCell (cell_origin c) (bool_decide (cell_origin c ∈ attacked))
               (cell_type c)) <$> cells.

(** * Properties *)

(** ** Basic facts about the primitives *)

(** Case analysis on membership in a list that is given by its elements. *)
Ltac elem_cases H :=
  apply list_elem_of_In in H; simpl in H;
  repeat match type of H with
         | _ ∨ _ => destruct H as [H|H]
         | False => destruct H
         end.

Lemma isSameOrigin_true a b : isSameOrigin a b = true ↔ a = b.
Proof.
  unfold isSameOrigin. destruct a as [ax ay], b as [bx by_]. simpl.
  rewrite andb_true_iff, !Z.eqb_eq. split; [intros [-> ->]|intros [= -> ->]]; done.
Qed.

Lemma isSameOrigin_refl a : isSameOrigin a a = true.
Proof. by apply isSameOrigin_true. Qed.

Lemma all_cells_hit_from (b : bool) cells :
  foldl (λ (_destroyed : bool) v, _destroyed && cell_hit v) b cells
  = b && forallb cell_hit cells.
Proof.
  revert b. induction cells as [|c cells IH]; intros b; simpl.
  - by rewrite andb_true_r.
  - rewrite IH. by rewrite andb_assoc.
Qed.

Lemma all_cells_hit_forallb cells : all_cells_hit cells = forallb cell_hit cells.
Proof. unfold all_cells_hit. by rewrite all_cells_hit_from. Qed.

(** ** The loop of determineAttackResult *)

Lemma find_cell_None origin cells :
  list_find (λ c, isSameOrigin (cell_origin c) origin) cells = None
  ↔ Forall (λ c, isSameOrigin (cell_origin c) origin = false) cells.
Proof.
  rewrite list_find_None. apply Forall_proper; [|done].
  intros c. by rewrite Is_true_false.
Qed.

Lemma find_cell_Some origin cells i c :
  list_find (λ c, isSameOrigin (cell_origin c) origin) cells = Some (i, c)
  ↔ ∃ before after,
      cells = before ++ c :: after ∧ length before = i ∧
      Forall (λ c', isSameOrigin (cell_origin c') origin = false) before ∧
      isSameOrigin (cell_origin c) origin = true.
Proof.
  rewrite list_find_Some. split.
  - intros (Hi & Hc & Hbefore).
    exists (take i cells), (drop (S i) cells). split_and!.
    + by rewrite take_drop_middle.
    + apply length_take_le. apply lookup_lt_Some in Hi. lia.
    + apply Forall_forall. intros c' Hc'.
      apply list_elem_of_lookup in Hc' as [j Hj].
      pose proof (lookup_lt_Some _ _ _ Hj) as Hlt.
      rewrite length_take in Hlt.
      rewrite lookup_take_lt in Hj by lia.
      apply Is_true_false. apply (Hbefore j c'); [done|lia].
    + by apply Is_true_true.
  - intros (before & after & -> & <- & Hbefore & Hc). split_and!.
    + by rewrite list_lookup_middle.
    + by apply Is_true_true.
    + intros j y Hj Hlt. rewrite lookup_app_l in Hj by done.
      rewrite Forall_forall in Hbefore. apply Is_true_false, Hbefore.
      apply list_elem_of_lookup. eauto.
Qed.

Lemma loop_skipped origin key ship rest :
  ship_skipped origin ship →
  determineAttackResult_loop origin ((key, ship) :: rest)
  = match determineAttackResult_loop origin rest with
    | Some (r, rest') => Some (r, (key, ship) :: rest')
    | None => None
    end.
Proof.
  intros [Hsunk|Hmiss]; simpl.
  - by rewrite Hsunk.
  - apply find_cell_None in Hmiss. rewrite Hmiss. by destruct (ship_sunk ship).
Qed.

Lemma loop_hit origin key ship rest before c after :
  ship_sunk ship = false →
  ship_cells ship = before ++ c :: after →
  Forall (λ c', isSameOrigin (cell_origin c') origin = false) before →
  isSameOrigin (cell_origin c) origin = true →
  determineAttackResult_loop origin ((key, ship) :: rest)
  = Some (hit_result c (forallb cell_hit (before ++ hit_cell c :: after)),
          (key, hit_ship ship before c after) :: rest).
Proof.
  intros Hsunk Hcells Hbefore Hc. simpl. rewrite Hsunk. simpl.
  assert (list_find (λ c, isSameOrigin (cell_origin c) origin) (ship_cells ship)
          = Some (length before, c)) as ->.
  { apply find_cell_Some. by exists before, after. }
  rewrite Hcells.
  assert (<[length before := hit_cell c]> (before ++ c :: after)
          = before ++ hit_cell c :: after) as Hins.
  { rewrite insert_app_r_alt by lia. by rewrite Nat.sub_diag. }
  unfold hit_cell in Hins. rewrite Hins.
  rewrite all_cells_hit_forallb. unfold hit_result, hit_ship, hit_cell. simpl.
  by destruct (forallb _ _).
Qed.

Lemma loop_app_skipped origin pre rest :
  Forall (λ e, ship_skipped origin e.2) pre →
  determineAttackResult_loop origin (pre ++ rest)
  = match determineAttackResult_loop origin rest with
    | Some (r, rest') => Some (r, pre ++ rest')
    | None => None
    end.
Proof.
  induction 1 as [|[key ship] pre Hskip _ IH]; simpl app.
  - by destruct (determineAttackResult_loop origin rest) as [[??]|].
  - rewrite loop_skipped by done. rewrite IH.
    by destruct (determineAttackResult_loop origin rest) as [[??]|].
Qed.

Lemma loop_None origin positions :
  determineAttackResult_loop origin positions = None
  ↔ Forall (λ e, ship_skipped origin e.2) positions.
Proof.
  induction positions as [|[key ship] rest IH].
  - split; [constructor|done].
  - split.
    + intros Hloop. simpl in Hloop.
      destruct (ship_sunk ship) eqn:Hsunk; simpl in Hloop.
      * constructor; [by left|].
        apply IH. by destruct (determineAttackResult_loop origin rest) as [[??]|].
      * destruct (list_find _ (ship_cells ship)) as [[i c]|] eqn:Hfind; [done|].
        constructor; [right; by apply find_cell_None|].
        apply IH. by destruct (determineAttackResult_loop origin rest) as [[??]|].
    + intros Hall. apply Forall_cons in Hall as [Hskip Hrest].
      rewrite loop_skipped by done. apply IH in Hrest. by rewrite Hrest.
Qed.

Lemma loop_Some origin positions r positions' :
  determineAttackResult_loop origin positions = Some (r, positions') →
  ∃ pre key ship post before c after,
    positions = pre ++ (key, ship) :: post ∧
    Forall (λ e, ship_skipped origin e.2) pre ∧
    ship_sunk ship = false ∧
    ship_cells ship = before ++ c :: after ∧
    Forall (λ c', isSameOrigin (cell_origin c') origin = false) before ∧
    isSameOrigin (cell_origin c) origin = true ∧
    r = hit_result c (forallb cell_hit (before ++ hit_cell c :: after)) ∧
    positions' = pre ++ (key, hit_ship ship before c after) :: post.
Proof.
  revert r positions'.
  induction positions as [|[key ship] rest IH]; intros r positions' Hloop; [done|].
  destruct (ship_sunk ship) eqn:Hsunk.
  - rewrite loop_skipped in Hloop by by left.
    destruct (determineAttackResult_loop origin rest) as [[r0 rest']|]; [|done].
    injection Hloop as <- <-.
    destruct (IH _ _ eq_refl)
      as (pre & k & s & post & before & c & after & -> & ? & ? & ? & ? & ? & ? & ->).
    exists ((key, ship) :: pre), k, s, post, before, c, after.
    split_and!; try done. constructor; [by left|done].
  - destruct (list_find (λ c, isSameOrigin (cell_origin c) origin)
                        (ship_cells ship)) as [[i c]|] eqn:Hfind.
    + apply find_cell_Some in Hfind as (before & after & Hcells & _ & Hbefore & Hc).
      rewrite (loop_hit _ _ _ _ before c after) in Hloop by done.
      injection Hloop as <- <-.
      exists [], key, ship, rest, before, c, after. split_and!; try done.
    + apply find_cell_None in Hfind.
      rewrite loop_skipped in Hloop by by right.
      destruct (determineAttackResult_loop origin rest) as [[r0 rest']|]; [|done].
      injection Hloop as <- <-.
      destruct (IH _ _ eq_refl)
        as (pre & k & s & post & before & c & after & -> & ? & ? & ? & ? & ? & ? & ->).
      exists ((key, ship) :: pre), k, s, post, before, c, after.
      split_and!; try done. constructor; [by right|done].
Qed.

(** The scenario of the spec, on the two-cell ship at (0,0): a hit, the hit
    that sinks the ship, then two misses, the first of them on a cell of the
    sunk ship. *)
Example determineAttackResult_scenario :
  let '(r1, p1) := determineAttackResult demo_player (attack_at 0 0) in
  let '(r2, p2) := determineAttackResult p1 (attack_at 1 0) in
  let '(r3, p3) := determineAttackResult p2 (attack_at 0 0) in
  let '(r4, p4) := determineAttackResult p3 (attack_at 5 5) in
  r1 = hit_result (mkCell (0, 0)%Z true "Destroyer") false ∧
  r2 = hit_result (mkCell (1, 0)%Z true "Destroyer") true ∧
  r3 = miss (0, 0)%Z ∧ r4 = miss (5, 5)%Z ∧ p3 = p2 ∧ p4 = p2.
Proof. vm_compute. by split_and!. Qed.

(** ** C3: an attack that no unsunk ship covers *)

(** C3. When the attack's origin matches no cell of any ship that is not
    sunk, [determineAttackResult] returns the miss object
    [{ hit: false, origin }] and the player it leaves behind is the player
    it was given: no cell, no sunk flag, no attack, no score has changed. *)
Theorem determineAttackResult_miss_leaves_state (p : MatchPlayer)
    (atk : AttackDataPayload) :
  (∀ key ship c,
      (key, ship) ∈ board_positions (board p) →
      ship_sunk ship = false →
      c ∈ ship_cells ship →
      isSameOrigin (cell_origin c) (atk_origin atk) = false) →
  determineAttackResult p atk = (mkResult false (atk_origin atk) None None, p).
Proof.
  intros Hnone. unfold determineAttackResult.
  assert (determineAttackResult_loop (atk_origin atk) (board_positions (board p))
          = None) as ->; [|done].
  apply loop_None, Forall_forall. intros [key ship] Hin. simpl.
  destruct (ship_sunk ship) eqn:Hsunk; [by left|right].
  apply Forall_forall. intros c Hc. by eapply Hnone.
Qed.

Lemma determineAttackResult_miss_leaves_state_witness :
  determineAttackResult demo_player (attack_at 5 5)
  = (mkResult false (5, 5)%Z None None, demo_player).
Proof.
  apply (determineAttackResult_miss_leaves_state demo_player (attack_at 5 5)).
  intros key ship c Hin Hsunk Hc.
  elem_cases Hin. injection Hin as <- <-.
  elem_cases Hc; subst c; reflexivity.
Defined.

(** ** C10: what one call of determineAttackResult can change *)

(** C10. A call of [determineAttackResult] either passes over every ship and
    changes nothing, or it stops at the first ship in iteration order that is
    not sunk and has a cell at the origin. In that case the board after the
    call is the board before it with that one ship replaced: its other fields
    are kept, the first matching cell has its hit flag set (all other cells
    are kept), and its sunk flag, false before, becomes the conjunction of
    the hit flags. The attacks, the score, the valid flag and the identity
    fields are the same after every call. *)
Theorem determineAttackResult_changes_one_ship (p : MatchPlayer)
    (atk : AttackDataPayload) :
  let origin := atk_origin atk in
  let r := (determineAttackResult p atk).1 in
  let p' := (determineAttackResult p atk).2 in
  (uuid p' = uuid p ∧ username p' = username p ∧ isAi p' = isAi p ∧
   match_ p' = match_ p ∧ score p' = score p ∧ attacks p' = attacks p ∧
   board_valid (board p') = board_valid (board p)) ∧
  ((Forall (λ e, ship_skipped origin e.2) (board_positions (board p)) ∧
    r = miss origin ∧ p' = p)
   ∨
   (∃ pre key ship post before c after,
      board_positions (board p) = pre ++ (key, ship) :: post ∧
      Forall (λ e, ship_skipped origin e.2) pre ∧
      ship_sunk ship = false ∧
      ship_cells ship = before ++ c :: after ∧
      Forall (λ c', isSameOrigin (cell_origin c') origin = false) before ∧
      isSameOrigin (cell_origin c) origin = true ∧
      r = hit_result c (forallb cell_hit (before ++ hit_cell c :: after)) ∧
      board_positions (board p')
      = pre ++ (key, hit_ship ship before c after) :: post)).
Proof.
  intros origin r p'. subst r p'. unfold determineAttackResult. fold origin.
  destruct (determineAttackResult_loop origin (board_positions (board p)))
    as [[r positions']|] eqn:Hloop; simpl.
  - split; [done|]. right. apply loop_Some in Hloop.
    destruct Hloop as (pre & key & ship & post & before & c & after & Hl).
    exists pre, key, ship, post, before, c, after.
    destruct Hl as (? & ? & ? & ? & ? & ? & ? & ?). by split_and!.
  - split; [done|]. left. by apply loop_None in Hloop.
Qed.

(** ** C4: the last unhit cell of a ship *)

(** C4, as stated, fails when an earlier ship covers the cell. The submarine
    is not sunk and (0,0) is its only unhit cell, yet the attack at (0,0) is
    resolved against the destroyer, which comes first: the result says
    [destroyed: false] and the submarine is left as it was, unsunk. *)
Lemma last_cell_under_earlier_ship_not_destroyed :
  obj_get "Submarine" (board_positions (board overlap_player))
  = Some overlap_submarine ∧
  ship_sunk overlap_submarine = false ∧
  filter (λ c, cell_hit c = false) (ship_cells overlap_submarine)
  = [mkCell (0, 0)%Z false "Submarine"] ∧
  (determineAttackResult overlap_player (attack_at 0 0)).1
  = mkResult true (0, 0)%Z (Some "Destroyer") (Some false) ∧
  obj_get "Submarine"
          (board_positions
             (board (determineAttackResult overlap_player (attack_at 0 0)).2))
  = Some overlap_submarine.
Proof. repeat split; vm_compute; reflexivity. Qed.

(** C4, amended. Take a ship that is not sunk and has exactly one unhit cell
    [c], and suppose the loop reaches that cell: every ship before it in
    iteration order is sunk or has no cell at [c]'s origin, and no earlier
    cell of the ship lies at that origin (both hold when ships do not
    overlap). Then the attack at [c]'s origin returns the hit object with
    [destroyed: true], the ship is stored sunk with all its cells hit, and
    every later attack at an origin that no other unsunk ship covers returns
    the miss object and changes nothing. *)
Theorem last_unhit_cell_sinks_ship (p : MatchPlayer)
    (pre post : PlayerPositionData) (key : ShipType) (ship : StoredShipData)
    (before after : list StoredShipDataCell) (c : StoredShipDataCell)
    (prediction : option Prediction) :
  board_positions (board p) = pre ++ (key, ship) :: post →
  ship_sunk ship = false →
  ship_cells ship = before ++ c :: after →
  cell_hit c = false →
  Forall (λ c', cell_hit c' = true) (before ++ after) →
  Forall (λ e, ship_skipped (cell_origin c) e.2) pre →
  Forall (λ c', isSameOrigin (cell_origin c') (cell_origin c) = false) before →
  let r := (determineAttackResult p (mkPayload (cell_origin c) prediction)).1 in
  let p' := (determineAttackResult p (mkPayload (cell_origin c) prediction)).2 in
  r = mkResult true (cell_origin c) (Some (cell_type c)) (Some true) ∧
  board_positions (board p')
  = pre ++ (key, mkShip true (ship_type ship) (ship_origin ship)
                        (ship_orientation ship)
                        (before ++ hit_cell c :: after)) :: post ∧
  ∀ atk',
    Forall (λ e, ship_skipped (atk_origin atk') e.2) (pre ++ post) →
    determineAttackResult p' atk' = (miss (atk_origin atk'), p').
Proof.
  intros Hpos Hsunk Hcells Hc Hothers Hpre Hbefore r p'.
  assert (forallb cell_hit (before ++ hit_cell c :: after) = true) as Hall.
  { apply Forall_app in Hothers as [Hb Ha].
    rewrite forallb_app. simpl.
    apply andb_true_iff; split; [|apply forallb_forall].
    - apply forallb_forall. intros x Hx.
      rewrite Forall_forall in Hb. apply Hb. by apply list_elem_of_In.
    - intros x Hx. rewrite Forall_forall in Ha. apply Ha. by apply list_elem_of_In. }
  assert (determineAttackResult_loop (cell_origin c) (board_positions (board p))
          = Some (hit_result c true,
                  pre ++ (key, hit_ship ship before c after) :: post)) as Hloop.
  { rewrite Hpos, loop_app_skipped by done.
    rewrite (loop_hit _ _ _ _ before c after)
      by (try done; apply isSameOrigin_refl).
    by rewrite Hall. }
  subst r p'. unfold determineAttackResult. simpl atk_origin. rewrite Hloop.
  simpl. unfold hit_ship. rewrite Hall. split_and!; [done..|].
  intros atk' Hskip. unfold determineAttackResult. simpl.
  assert (determineAttackResult_loop (atk_origin atk')
            (pre ++ (key, mkShip true (ship_type ship) (ship_origin ship)
                                 (ship_orientation ship)
                                 (before ++ hit_cell c :: after)) :: post)
          = None) as ->; [|done].
  apply loop_None. apply Forall_app in Hskip as [Hp Hq].
  apply Forall_app. split; [done|]. constructor; [by left|done].
Qed.

Lemma last_unhit_cell_sinks_ship_witness :
  let p1 := (determineAttackResult demo_player (attack_at 0 0)).2 in
  let r := (determineAttackResult p1 (attack_at 1 0)).1 in
  let p2 := (determineAttackResult p1 (attack_at 1 0)).2 in
  r = mkResult true (1, 0)%Z (Some "Destroyer") (Some true) ∧
  board_positions (board p2)
  = [("Destroyer",
      mkShip true "Destroyer" (0, 0)%Z horizontal
             [mkCell (0, 0)%Z true "Destroyer";
              mkCell (1, 0)%Z true "Destroyer"])] ∧
  ∀ atk',
    Forall (λ e : ShipType * StoredShipData,
              ship_skipped (atk_origin atk') e.2) [] →
    determineAttackResult p2 atk' = (miss (atk_origin atk'), p2).
Proof.
  apply (last_unhit_cell_sinks_ship
           (determineAttackResult demo_player (attack_at 0 0)).2
           [] [] "Destroyer"
           (mkShip false "Destroyer" (0, 0)%Z horizontal
                   [mkCell (0, 0)%Z true "Destroyer";
                    mkCell (1, 0)%Z false "Destroyer"])
           [mkCell (0, 0)%Z true "Destroyer"] []
           (mkCell (1, 0)%Z false "Destroyer") None).
  - reflexivity.
  - reflexivity.
  - reflexivity.
  - reflexivity.
  - repeat constructor.
  - constructor.
  - repeat constructor.
Defined.

(** ** C2: the sunk flag agrees with the cells *)

Lemma Forall_obj_set {V : Type} (P : string * V → Prop) k v o :
  P (k, v) → Forall P o → Forall P (obj_set k v o).
Proof.
  intros Hkv. induction 1 as [|[k' v'] o Hhd Htl IH]; simpl.
  - by repeat constructor.
  - case_decide; constructor; done.
Qed.

Lemma foldl_invariant {A B : Type} (P : A → Prop) (f : A → B → A) (l : list B)
    (a : A) :
  P a → (∀ a b, P a → P (f a b)) → P (foldl f a l).
Proof.
  intros Ha Hf. revert a Ha. induction l as [|b l IH]; intros a Ha; simpl; auto.
Qed.

Lemma fresh_cells_unhit type (cells : list CellPosition) :
  cells ≠ [] →
  forallb cell_hit ((λ origin, mkCell origin false type) <$> cells) = false.
Proof. by destruct cells. Qed.

Lemma hit_ship_consistent ship before c after :
  ship_consistent (hit_ship ship before c after).
Proof. reflexivity. Qed.

Lemma determineAttackResult_consistent p atk :
  board_consistent (board_positions (board p)) →
  board_consistent (board_positions (board (determineAttackResult p atk).2)).
Proof.
  intros Hinv. unfold determineAttackResult.
  destruct (determineAttackResult_loop (atk_origin atk)
              (board_positions (board p))) as [[r positions']|] eqn:Hloop;
    [|done].
  apply loop_Some in Hloop
    as (pre & key & ship & post & before & c & after
        & Hpos & _ & _ & _ & _ & _ & _ & ->).
  simpl. unfold board_consistent in *. rewrite Hpos in Hinv.
  apply Forall_app in Hinv as [Hpre Hrest].
  apply Forall_cons in Hrest as [_ Hpost].
  apply Forall_app. split; [done|]. constructor; [|done].
  apply hit_ship_consistent.
Qed.

(** *** Boards built from placements *)

Lemma place_ship_placed (ShipSize : ShipType → nat)
    (coverage : CellPosition → Orientation → nat → list CellPosition)
    (seen rest : ShipPositionData) (acc : PlayerPositionData) :
  Forall (placed_by ShipSize coverage (seen ++ rest)) acc →
  Forall (placed_by ShipSize coverage (seen ++ rest))
         (foldl (place_ship ShipSize coverage) acc rest).
Proof.
  revert seen acc.
  induction rest as [|[type shipData] rest IH]; intros seen acc Hacc; [done|].
  simpl. replace (seen ++ (type, shipData) :: rest)
    with ((seen ++ [(type, shipData)]) ++ rest) in * by by rewrite <-app_assoc.
  apply IH. apply Forall_obj_set; [|done].
  exists shipData. simpl. split; [|done].
  apply elem_of_app. left. apply elem_of_app. right. left.
Qed.

Lemma createPositionDataWithCells_entries (ShipSize : ShipType → nat)
    (coverage : CellPosition → Orientation → nat → list CellPosition)
    (data : ShipPositionData) :
  Forall (placed_by ShipSize coverage data)
         (createPositionDataWithCells ShipSize coverage data).
Proof. apply (place_ship_placed ShipSize coverage [] data []). constructor. Qed.

Section Consistency.

Variable ShipSize : ShipType → nat.
Variable coverage : CellPosition → Orientation → nat → list CellPosition.

(** Every ship covers at least one cell. *)
Hypothesis coverage_nonempty :
  ∀ origin orientation type, coverage origin orientation (ShipSize type) ≠ [].

Lemma createPositionDataWithCells_consistent data :
  plain_layout data →
  board_consistent (createPositionDataWithCells ShipSize coverage data).
Proof using coverage_nonempty.
  intros Hplain. unfold board_consistent.
  eapply Forall_impl; [apply createPositionDataWithCells_entries|].
  intros [key ship] (placement & Hin & Hship). simpl in *. subst ship.
  unfold plain_layout in Hplain. rewrite Forall_forall in Hplain.
  specialize (Hplain _ Hin). simpl in Hplain.
  unfold ship_consistent. simpl. rewrite fresh_cells_unhit by done.
  destruct (place_sunk placement) as [[]|]; done.
Qed.

Lemma plain_step_consistent s s' :
  plain_step ShipSize coverage s s' →
  board_consistent (board_positions (board s.1)) →
  board_consistent (board_positions (board s'.1)).
Proof using coverage_nonempty.
  destruct 1; simpl; try done.
  - intros _. by apply createPositionDataWithCells_consistent.
  - apply determineAttackResult_consistent.
Qed.

Lemma plain_reachable_consistent s :
  plain_reachable ShipSize coverage s →
  board_consistent (board_positions (board s.1)).
Proof using coverage_nonempty.
  intros (opts & layout & h0 & Hboard & Hplain & Hsteps).
  eapply (rtc_ind_r (λ s, board_consistent (board_positions (board s.1))));
    [| |exact Hsteps].
  - simpl. rewrite Hboard. simpl.
    by apply createPositionDataWithCells_consistent.
  - intros y z _ Hstep IH. by eapply plain_step_consistent.
Qed.

End Consistency.

Lemma plain_step_step ShipSize coverage s s' :
  plain_step ShipSize coverage s s' → step ShipSize coverage s s'.
Proof. destruct 1; constructor. Qed.

Lemma plain_reachable_reachable ShipSize coverage s :
  plain_reachable ShipSize coverage s → reachable ShipSize coverage s.
Proof.
  intros (opts & layout & h0 & Hboard & _ & Hsteps).
  exists opts, layout, h0. split; [done|].
  eapply rtc_subrel; [|exact Hsteps]. apply plain_step_step.
Qed.

(** C2, as stated, fails. A placement that carries [sunk: true] is stored
    with that flag, the spread coming after the default, over cells that are
    all unhit: the state is reached from a constructed player by one call of
    [setShipPositionData], the Destroyer in it is sunk, and the conjunction
    of the hit flags of its two cells is false. The attack at (0,0), a cell
    of that ship, is then a miss. *)
Lemma carried_sunk_flag_breaks_invariant :
  reachable demo_sizes expandCells (carried_sunk_player, ∅) ∧
  board_positions (board carried_sunk_player)
  = [("Destroyer",
      mkShip true "Destroyer" (0, 0)%Z horizontal
             [mkCell (0, 0)%Z false "Destroyer";
              mkCell (1, 0)%Z false "Destroyer"])] ∧
  forallb cell_hit [mkCell (0, 0)%Z false "Destroyer";
                    mkCell (1, 0)%Z false "Destroyer"] = false ∧
  (determineAttackResult carried_sunk_player (attack_at 0 0)).1
  = miss (0, 0)%Z.
Proof.
  split_and!; [|reflexivity..].
  exists (demo_opts (JsNum (JsFinite 0))), demo_layout, ∅. split; [reflexivity|].
  eapply rtc_l; [|apply rtc_refl].
  apply (step_setShipPositionData demo_sizes expandCells demo_player ∅
                                  carried_sunk_layout true).
Qed.

(** The other precondition of the amended claim is needed as well: a ship
    type of size 0 is stored unsunk with no cell, and the conjunction of no
    hit flag is true. *)
Lemma ship_without_cells_is_not_consistent :
  createPositionDataWithCells (λ _, 0) expandCells demo_layout
  = [("Destroyer", mkShip false "Destroyer" (0, 0)%Z horizontal [])] ∧
  forallb cell_hit [] = true.
Proof. split; reflexivity. Qed.

(** C2, amended. Take the states reached from a player constructed with a
    synthesized board by [setShipPositionData], [determineAttackResult],
    [recordAttackResult], [setMatchInstanceUUID] and [toOpponentJSON], where
    no placement given to the constructor or to [setShipPositionData]
    carries [sunk: true] and every ship covers at least one cell. In every
    such state every stored ship has [sunk] equal to the conjunction of the
    hit flags of its cells. *)
Theorem plain_reachable_sunk_iff_all_cells_hit (ShipSize : ShipType → nat)
    (coverage : CellPosition → Orientation → nat → list CellPosition)
    (s : State) (key : ShipType) (ship : StoredShipData) :
  (∀ origin orientation type, coverage origin orientation (ShipSize type) ≠ []) →
  plain_reachable ShipSize coverage s →
  (key, ship) ∈ board_positions (board s.1) →
  ship_sunk ship = forallb cell_hit (ship_cells ship).
Proof.
  intros Hcov Hreach Hin.
  pose proof (plain_reachable_consistent ShipSize coverage Hcov s Hreach) as Hinv.
  unfold board_consistent in Hinv. rewrite Forall_forall in Hinv.
  apply (Hinv (key, ship) Hin).
Qed.

Lemma expandCells_length origin orientation size :
  length (expandCells origin orientation size) = size.
Proof. unfold expandCells. by rewrite length_fmap, length_seq. Qed.

Lemma expandCells_nonempty origin orientation size :
  0 < size → expandCells origin orientation size ≠ [].
Proof.
  intros Hpos Hnil.
  pose proof (expandCells_length origin orientation size) as Hlen.
  rewrite Hnil in Hlen. simpl in Hlen. lia.
Qed.

Lemma demo_sizes_nonempty origin orientation type :
  expandCells origin orientation (demo_sizes type) ≠ [].
Proof.
  apply expandCells_nonempty. unfold demo_sizes. repeat case_decide; lia.
Qed.

Lemma plain_reachable_sunk_iff_all_cells_hit_witness :
  ship_sunk (mkShip false "Destroyer" (0, 0)%Z horizontal
                    [mkCell (0, 0)%Z true "Destroyer";
                     mkCell (1, 0)%Z false "Destroyer"])
  = forallb cell_hit [mkCell (0, 0)%Z true "Destroyer";
                      mkCell (1, 0)%Z false "Destroyer"].
Proof.
  apply (plain_reachable_sunk_iff_all_cells_hit demo_sizes expandCells
           ((determineAttackResult demo_player (attack_at 0 0)).2, ∅)
           "Destroyer").
  - apply demo_sizes_nonempty.
  - exists (demo_opts (JsNum (JsFinite 0))), demo_layout, ∅.
    split; [reflexivity|]. split; [by repeat constructor|].
    eapply rtc_l; [|apply rtc_refl].
    apply (plain_determineAttackResult demo_sizes expandCells demo_player ∅
                                       (attack_at 0 0)).
  - vm_compute. left.
Defined.

(** ** C5: the current run of hits *)

Lemma sort_insert_perm {A : Type} (cmp : A → A → Z) x l :
  sort_insert cmp x l ≡ₚ x :: l.
Proof.
  induction l as [|y l IH]; simpl; [done|].
  destruct (cmp x y <? 0)%Z; [done|].
  rewrite IH. apply Permutation_swap.
Qed.

Lemma array_sort_perm_from {A : Type} (cmp : A → A → Z) l sorted :
  foldl (λ sorted x, sort_insert cmp x sorted) sorted l ≡ₚ sorted ++ l.
Proof.
  revert sorted. induction l as [|x l IH]; intros sorted; simpl.
  - by rewrite app_nil_r.
  - rewrite IH, sort_insert_perm. simpl. apply Permutation_middle.
Qed.

Lemma array_sort_perm {A : Type} (cmp : A → A → Z) l : array_sort cmp l ≡ₚ l.
Proof. unfold array_sort. by rewrite array_sort_perm_from. Qed.

Lemma most_recent_first_neg a b :
  (most_recent_first a b <? 0)%Z = true ↔ (sa_ts b < sa_ts a)%Z.
Proof.
  unfold most_recent_first.
  destruct (sa_ts b <? sa_ts a)%Z eqn:Hlt; simpl.
  - apply Z.ltb_lt in Hlt. by split.
  - apply Z.ltb_ge in Hlt. split; [done|lia].
Qed.

Lemma sort_insert_recent_first x l :
  StronglySorted recent_first l →
  StronglySorted recent_first (sort_insert most_recent_first x l).
Proof.
  induction 1 as [|y l Hl IH Hy]; simpl.
  - repeat constructor.
  - destruct (most_recent_first x y <? 0)%Z eqn:Hcmp.
    + apply most_recent_first_neg in Hcmp.
      constructor; [by constructor|].
      constructor; [unfold recent_first; lia|].
      eapply Forall_impl; [exact Hy|]. unfold recent_first. intros z Hz. simpl in Hz. lia.
    + constructor; [done|].
      rewrite sort_insert_perm. constructor; [|done].
      unfold recent_first.
      destruct (decide (sa_ts y < sa_ts x)%Z) as [Hlt|Hge]; [|lia].
      apply most_recent_first_neg in Hlt. congruence.
Qed.

Lemma array_sort_recent_first l :
  StronglySorted recent_first (array_sort most_recent_first l).
Proof.
  unfold array_sort.
  apply (foldl_invariant (StronglySorted recent_first)); [constructor|].
  intros sorted x Hsorted. by apply sort_insert_recent_first.
Qed.

Lemma count_until_miss_hit_run l count :
  count_until_miss l count = count + length (hit_run l).
Proof.
  revert count. induction l as [|a l IH]; intros count; simpl; [lia|].
  destruct (res_hit (sa_result a)); simpl; [rewrite IH|]; lia.
Qed.

(** In a list ordered most recent first, the attacks that are more recent than
    all of [rest] come first; when they are all hits and the most recent of
    [rest] is a miss, they are the run that is counted. *)
Lemma hit_run_of_sorted order run rest :
  StronglySorted recent_first order →
  order ≡ₚ run ++ rest →
  Forall (λ a, res_hit (sa_result a) = true) run →
  (∀ a b, a ∈ run → b ∈ rest → (sa_ts b < sa_ts a)%Z) →
  (rest = [] ∨
   ∃ m, m ∈ rest ∧ res_hit (sa_result m) = false ∧
        ∀ b, b ∈ rest → b = m ∨ (sa_ts b < sa_ts m)%Z) →
  length (hit_run order) = length run.
Proof.
  intros Hsorted. revert run.
  induction Hsorted as [|x order Hsorted IH Hx]; intros run Hperm Hhits Hnewer Hrest.
  - symmetry in Hperm. apply Permutation_nil_r in Hperm.
    apply app_eq_nil in Hperm as [-> _]. done.
  - rewrite Forall_forall in Hx.
    assert (∀ z, z ∈ run ++ rest → (sa_ts z ≤ sa_ts x)%Z) as Hmax.
    { intros z Hz. rewrite <-Hperm in Hz.
      apply elem_of_cons in Hz as [->|Hz]; [lia|]. by apply Hx. }
    assert (x ∈ run ++ rest) as Hxin by (rewrite <-Hperm; left).
    destruct run as [|a0 run0].
    + (* no run: the head is the most recent of [rest], a miss *)
      simpl in *. destruct Hrest as [->|(m & Hm & Hmiss & Htop)].
      { by apply elem_of_nil in Hxin. }
      destruct (Htop x Hxin) as [->|Hlt].
      * by rewrite Hmiss.
      * specialize (Hmax m Hm). lia.
    + (* the head belongs to the run *)
      assert (x ∈ a0 :: run0) as Hxrun.
      { apply elem_of_app in Hxin as [?|Hxrest]; [done|].
        assert (a0 ∈ a0 :: run0) as Ha0 by left.
        specialize (Hnewer a0 x Ha0 Hxrest).
        specialize (Hmax a0 ltac:(apply elem_of_app; by left)). lia. }
      rewrite Forall_forall in Hhits.
      pose proof Hxrun as Hhitx. apply Hhits in Hhitx.
      apply elem_of_Permutation in Hxrun as [run' Hrun'].
      pose proof (Permutation_length Hrun') as Hlen. simpl in Hlen.
      simpl. rewrite Hhitx. simpl. rewrite (IH run'); [lia|..].
      * rewrite Hrun' in Hperm. simpl in Hperm. by apply (inj (x ::.)) in Hperm.
      * apply Forall_forall. intros a Ha. apply Hhits. rewrite Hrun'. by right.
      * intros a b Ha Hb. apply Hnewer; [|done]. rewrite Hrun'. by right.
      * done.
Qed.

Lemma hit_run_after_run l : l = hit_run l ++ after_run l.
Proof.
  induction l as [|a l IH]; simpl; [done|].
  destruct (res_hit (sa_result a)); simpl; [by rewrite <-IH|done].
Qed.

Lemma hit_run_hits l : Forall (λ a, res_hit (sa_result a) = true) (hit_run l).
Proof.
  induction l as [|a l IH]; simpl; [constructor|].
  destruct (res_hit (sa_result a)) eqn:Ha; by constructor.
Qed.

Lemma after_run_head l :
  after_run l = [] ∨
  ∃ m tl, after_run l = m :: tl ∧ res_hit (sa_result m) = false.
Proof.
  induction l as [|a l IH]; simpl; [by left|].
  destruct (res_hit (sa_result a)) eqn:Ha; [done|]. right. by exists a, l.
Qed.

(** With pairwise distinct timestamps the order is strict. *)
Lemma recent_first_strict l :
  StronglySorted recent_first l → NoDup (sa_ts <$> l) →
  StronglySorted more_recent l.
Proof.
  induction 1 as [|x l Hl IH Hx]; intros Hnd; [constructor|].
  rewrite fmap_cons in Hnd. apply NoDup_cons in Hnd as [Hfresh Hnd].
  constructor; [by apply IH|].
  rewrite Forall_forall in Hx. apply Forall_forall. intros z Hz.
  specialize (Hx z Hz). unfold recent_first in Hx. unfold more_recent.
  destruct (decide (sa_ts z = sa_ts x)) as [Heq|Hne]; [|lia].
  exfalso. apply Hfresh. rewrite <-Heq. by apply list_elem_of_fmap_2.
Qed.

(** With pairwise distinct timestamps the attacks always split into the run
    of most recent hits and a remainder that is empty or headed by a miss. *)
Lemma distinct_timestamps_split l :
  NoDup (sa_ts <$> l) →
  ∃ run rest,
    l ≡ₚ run ++ rest ∧
    Forall (λ a, res_hit (sa_result a) = true) run ∧
    (∀ a b, a ∈ run → b ∈ rest → (sa_ts b < sa_ts a)%Z) ∧
    (rest = [] ∨
     ∃ m, m ∈ rest ∧ res_hit (sa_result m) = false ∧
          ∀ b, b ∈ rest → b = m ∨ (sa_ts b < sa_ts m)%Z).
Proof.
  intros Hnd.
  pose proof (array_sort_perm most_recent_first l) as Hperm.
  pose proof (array_sort_recent_first l) as Hsorted.
  apply recent_first_strict in Hsorted; [|by rewrite Hperm].
  set (order := array_sort most_recent_first l) in *.
  exists (hit_run order), (after_run order).
  rewrite (hit_run_after_run order) in Hsorted.
  apply StronglySorted_app in Hsorted as (Hcross & _ & Hrest).
  split_and!.
  - by rewrite <-hit_run_after_run.
  - apply hit_run_hits.
  - intros a b Ha Hb. by apply Hcross.
  - destruct (after_run_head order) as [?|(m & tl & Htl & Hmiss)]; [by left|].
    right. exists m. rewrite Htl in *. split_and!; [left|done|].
    intros b Hb. apply elem_of_cons in Hb as [->|Hb]; [by left|right].
    apply StronglySorted_cons in Hrest as [Hm _].
    rewrite Forall_forall in Hm. by apply Hm.
Qed.

(** C5. [getContinuousHitsCount] counts the hits at the front of the attacks
    put in most-recent-first order. It returns 0 when there are no attacks
    and when the most recent attack is a miss. When the attacks split into a
    run of hits, each more recent than everything else, and a remainder that
    is empty or whose most recent attack is a miss, it returns the length of
    that run. How attacks with equal timestamps are ordered among themselves
    plays no part, and when all timestamps differ such a split always
    exists. *)
Theorem getContinuousHitsCount_counts_recent_hits (p : MatchPlayer) :
  (∃ order,
      order ≡ₚ attacks p ∧ StronglySorted recent_first order ∧
      getContinuousHitsCount p = length (hit_run order)) ∧
  (attacks p = [] → getContinuousHitsCount p = 0) ∧
  (∀ m,
      m ∈ attacks p → res_hit (sa_result m) = false →
      (∀ b, b ∈ attacks p → b = m ∨ (sa_ts b < sa_ts m)%Z) →
      getContinuousHitsCount p = 0) ∧
  (∀ run rest,
      attacks p ≡ₚ run ++ rest →
      Forall (λ a, res_hit (sa_result a) = true) run →
      (∀ a b, a ∈ run → b ∈ rest → (sa_ts b < sa_ts a)%Z) →
      (rest = [] ∨
       ∃ m, m ∈ rest ∧ res_hit (sa_result m) = false ∧
            ∀ b, b ∈ rest → b = m ∨ (sa_ts b < sa_ts m)%Z) →
      getContinuousHitsCount p = length run) ∧
  (NoDup (sa_ts <$> attacks p) →
   ∃ run rest,
     attacks p ≡ₚ run ++ rest ∧
     Forall (λ a, res_hit (sa_result a) = true) run ∧
     (∀ a b, a ∈ run → b ∈ rest → (sa_ts b < sa_ts a)%Z) ∧
     (rest = [] ∨
      ∃ m, m ∈ rest ∧ res_hit (sa_result m) = false ∧
           ∀ b, b ∈ rest → b = m ∨ (sa_ts b < sa_ts m)%Z) ∧
     getContinuousHitsCount p = length run).
Proof.
  assert (∀ run rest,
      attacks p ≡ₚ run ++ rest →
      Forall (λ a, res_hit (sa_result a) = true) run →
      (∀ a b, a ∈ run → b ∈ rest → (sa_ts b < sa_ts a)%Z) →
      (rest = [] ∨
       ∃ m, m ∈ rest ∧ res_hit (sa_result m) = false ∧
            ∀ b, b ∈ rest → b = m ∨ (sa_ts b < sa_ts m)%Z) →
      getContinuousHitsCount p = length run) as Hrun.
  { intros run rest Hperm Hhits Hnewer Hrest.
    unfold getContinuousHitsCount. rewrite count_until_miss_hit_run. simpl.
    apply (hit_run_of_sorted _ run rest); try done.
    - apply array_sort_recent_first.
    - by rewrite array_sort_perm. }
  split_and!.
  - exists (array_sort most_recent_first (attacks p)). split_and!.
    + apply array_sort_perm.
    + apply array_sort_recent_first.
    + unfold getContinuousHitsCount. by rewrite count_until_miss_hit_run.
  - intros Hnil. unfold getContinuousHitsCount. by rewrite Hnil.
  - intros m Hm Hmiss Htop.
    apply (Hrun [] (attacks p)); [done|constructor| |].
    + intros a b Ha. by apply elem_of_nil in Ha.
    + right. by exists m.
  - exact Hrun.
  - intros Hnd.
    destruct (distinct_timestamps_split (attacks p) Hnd)
      as (run & rest & Hperm & Hhits & Hnewer & Hrest).
    exists run, rest. split_and!; try done. by apply (Hrun run rest).
Qed.

Lemma getContinuousHitsCount_counts_recent_hits_witness :
  getContinuousHitsCount (with_attacks []) = 0 ∧
  getContinuousHitsCount (with_attacks [hit_one; late_miss; hit_two]) = 0 ∧
  getContinuousHitsCount (with_attacks [old_miss; hit_two; hit_one]) = 2.
Proof.
  split; [|split].
  - apply (getContinuousHitsCount_counts_recent_hits (with_attacks [])).
    reflexivity.
  - apply (proj1 (proj2 (proj2 (getContinuousHitsCount_counts_recent_hits
                    (with_attacks [hit_one; late_miss; hit_two]))))
             late_miss).
    + simpl. right. left.
    + reflexivity.
    + simpl. intros b Hb. elem_cases Hb; subst b; [right|left|right]; done.
  - apply (proj1 (proj2 (proj2 (proj2
                    (getContinuousHitsCount_counts_recent_hits
                       (with_attacks [old_miss; hit_two; hit_one])))))
             [hit_two; hit_one] [old_miss]).
    + simpl. apply Permutation_cons_append.
    + repeat constructor.
    + intros a b Ha Hb. elem_cases Hb. subst b. elem_cases Ha; subst a; done.
    + right. exists old_miss. split_and!; [left|reflexivity|].
      intros b Hb. elem_cases Hb. by left.
Defined.

(** ** C6: what the opponent sees of the board *)

Lemma obj_get_Some_elem {V : Type} (k : string) (v : V) o :
  obj_get k o = Some v → (k, v) ∈ o.
Proof.
  induction o as [|[k' v'] o IH]; simpl; [done|].
  case_decide as Hk.
  - intros [= ->]. subst. left.
  - intros Hget. right. by apply IH.
Qed.

Lemma obj_get_is_Some {V : Type} (k : string) (o : list (string * V)) :
  is_Some (obj_get k o) ↔ k ∈ o.*1.
Proof.
  induction o as [|[k' v'] o IH]; simpl.
  - rewrite elem_of_nil. split; [by intros [??]|done].
  - rewrite elem_of_cons. case_decide as Hk.
    + subst. split; [by left|by eexists].
    + rewrite IH. split; [by right|]. intros [->|?]; done.
Qed.

Lemma obj_get_elem_NoDup {V : Type} (k : string) (v : V) o :
  NoDup o.*1 → (k, v) ∈ o → obj_get k o = Some v.
Proof.
  induction o as [|[k' v'] o IH]; simpl; intros Hnd Hin.
  - by apply elem_of_nil in Hin.
  - apply NoDup_cons in Hnd as [Hfresh Hnd].
    apply elem_of_cons in Hin as [[= <- <-]|Hin].
    + by rewrite decide_True.
    + rewrite decide_False; [by apply IH|].
      intros ->. apply Hfresh. apply list_elem_of_fmap. by exists (k, v).
Qed.

Lemma elem_of_obj_set {V : Type} (e : string * V) k v o :
  e ∈ obj_set k v o → e = (k, v) ∨ e ∈ o.
Proof.
  induction o as [|[k' v'] o IH]; simpl.
  - rewrite list_elem_of_singleton. by left.
  - case_decide; rewrite !elem_of_cons.
    + intros [->|?]; [by left|right; by right].
    + intros [->|Hin]; [right; by left|].
      destruct (IH Hin) as [->|?]; [by left|right; by right].
Qed.

Lemma obj_set_keys {V : Type} (k' k : string) (v : V) o :
  k' ∈ (obj_set k v o).*1 ↔ k' = k ∨ k' ∈ o.*1.
Proof.
  induction o as [|[k0 v0] o IH]; simpl.
  - rewrite list_elem_of_singleton, elem_of_nil. split; [by left|].
    by intros [?|[]].
  - case_decide as Hk; simpl; rewrite !elem_of_cons.
    + subst k0. split; [intros [->|?]; [by left|right; by right]|].
      intros [->|[->|?]]; [by left|by left|by right].
    + rewrite IH. split.
      * intros [->|[->|?]]; [right; by left|by left|right; by right].
      * intros [->|[->|?]]; [right; by left|by left|right; by right].
Qed.

Lemma reveal_from_elem ships revealed e :
  e ∈ reveal_from revealed ships →
  e ∈ revealed ∨
  ∃ ship, ship ∈ ships ∧ ship_sunk ship = true ∧ e = (ship_type ship, ship).
Proof.
  revert revealed. induction ships as [|s ships IH]; intros revealed; simpl.
  - by left.
  - intros Hin. apply IH in Hin as [Hin|(ship & ? & ? & ?)].
    + destruct (ship_sunk s) eqn:Hs.
      * apply elem_of_obj_set in Hin as [->|?]; [|by left].
        right. exists s. split_and!; [left|done..].
      * by left.
    + right. exists ship. split_and!; [by right|done..].
Qed.

Lemma reveal_from_keys ships revealed t :
  t ∈ (reveal_from revealed ships).*1 ↔
  t ∈ revealed.*1 ∨
  ∃ ship, ship ∈ ships ∧ ship_sunk ship = true ∧ ship_type ship = t.
Proof.
  revert revealed. induction ships as [|s ships IH]; intros revealed; simpl.
  - split; [by left|]. intros [?|(ship & Hin & _)]; [done|].
    by apply elem_of_nil in Hin.
  - rewrite IH. destruct (ship_sunk s) eqn:Hs.
    + rewrite obj_set_keys. split.
      * intros [[->|?]|(ship & ? & ? & ?)].
        -- right. exists s. split_and!; [left|done..].
        -- by left.
        -- right. exists ship. split_and!; [by right|done..].
      * intros [?|(ship & Hin & ? & ?)]; [by left; right|].
        apply elem_of_cons in Hin as [->|?]; [left; by left|].
        right. by exists ship.
    + split.
      * intros [?|(ship & ? & ? & ?)]; [by left|].
        right. exists ship. split_and!; [by right|done..].
      * intros [?|(ship & Hin & ? & ?)]; [by left|].
        apply elem_of_cons in Hin as [->|?]; [congruence|].
        right. by exists ship.
Qed.

Lemma toOpponentJSON_board p h :
  od_board (toOpponentJSON p h).1
  = mkOppBoard (board_valid (board p)) (reveal_sunk (board_positions (board p))).
Proof.
  unfold toOpponentJSON. by destruct (toOpponentJSON_attacks (attacks p) h).
Qed.

(** C6. The positions of the opponent view have an entry under a ship type
    exactly when a stored ship of that type is sunk, and every entry of the
    view is a stored ship that is sunk, filed under its own type: no ship
    that is not sunk appears. When the board is keyed by the ships' types,
    as every board built by the class is, the entry under a type is the ship
    stored under that type if it is sunk and is absent otherwise. *)
Theorem toOpponentJSON_reveals_exactly_sunk (p : MatchPlayer) (h : heap) :
  let positions := board_positions (board p) in
  let view := opp_positions (od_board (toOpponentJSON p h).1) in
  (∀ t, is_Some (obj_get t view) ↔
        ∃ key ship, (key, ship) ∈ positions ∧
                    ship_type ship = t ∧ ship_sunk ship = true) ∧
  (∀ t ship, (t, ship) ∈ view →
             ship_sunk ship = true ∧ ship_type ship = t ∧
             ∃ key, (key, ship) ∈ positions) ∧
  ((∀ key ship, (key, ship) ∈ positions → ship_type ship = key) →
   NoDup positions.*1 →
   ∀ t, obj_get t view
        = ship ← obj_get t positions;
          if ship_sunk ship then Some ship else None).
Proof.
  intros positions view. subst view. rewrite toOpponentJSON_board. simpl.
  fold positions. change (reveal_sunk positions) with (reveal_from [] positions.*2).
  assert (∀ t ship, (t, ship) ∈ reveal_from [] positions.*2 →
             ship_sunk ship = true ∧ ship_type ship = t ∧
             ∃ key, (key, ship) ∈ positions) as Hentries.
  { intros t ship Hin.
    apply reveal_from_elem in Hin as [Hin|(s & Hs & Hsunk & [= -> ->])].
    { by apply elem_of_nil in Hin. }
    split_and!; [done..|].
    apply list_elem_of_fmap in Hs as ([key s'] & -> & Hin). by exists key. }
  assert (∀ t, is_Some (obj_get t (reveal_from [] positions.*2)) ↔
        ∃ key ship, (key, ship) ∈ positions ∧
                    ship_type ship = t ∧ ship_sunk ship = true) as Hkeys.
  { intros t. rewrite obj_get_is_Some, reveal_from_keys. split.
    - intros [Hin|(s & Hs & Hsunk & Ht)]; [by apply elem_of_nil in Hin|].
      apply list_elem_of_fmap in Hs as ([key s'] & -> & Hin). by exists key, s'.
    - intros (key & ship & Hin & Ht & Hsunk). right. exists ship.
      split_and!; [|done..]. apply list_elem_of_fmap. by exists (key, ship). }
  split_and!; [done..|].
  intros Hkeyed Hnodup t.
  destruct (obj_get t (reveal_from [] positions.*2)) as [s|] eqn:Hview.
  - apply obj_get_Some_elem, Hentries in Hview as (Hsunk & Ht & key & Hin).
    pose proof (Hkeyed _ _ Hin) as Hkey. rewrite Ht in Hkey. subst key.
    rewrite (obj_get_elem_NoDup t s positions Hnodup Hin). simpl. by rewrite Hsunk.
  - destruct (obj_get t positions) as [s|] eqn:Hstored; simpl; [|done].
    destruct (ship_sunk s) eqn:Hsunk; [|done].
    assert (is_Some (obj_get t (reveal_from [] positions.*2))) as [s' Hs'].
    { apply Hkeys. exists t, s. apply obj_get_Some_elem in Hstored.
      split_and!; [done| |done]. by apply Hkeyed. }
    congruence.
Qed.

Lemma toOpponentJSON_reveals_exactly_sunk_witness :
  obj_get "Destroyer"
          (opp_positions (od_board (toOpponentJSON sunk_demo_player ∅).1))
  = ship ← obj_get "Destroyer" (board_positions (board sunk_demo_player));
    if ship_sunk ship then Some ship else None.
Proof.
  apply (proj2 (proj2 (toOpponentJSON_reveals_exactly_sunk sunk_demo_player ∅))).
  - intros key ship Hin. elem_cases Hin. by injection Hin as <- <-.
  - simpl. apply NoDup_cons. split; [apply not_elem_of_nil|apply NoDup_nil_2].
Defined.

(** ** C7: the snapshot round trip *)

Lemma from_ignores_layout (ShipSize : ShipType → nat)
    (coverage : CellPosition → Orientation → nat → list CellPosition)
    (data : MatchPlayerData) (layout : ShipPositionData) :
  new_MatchPlayer ShipSize coverage (opts_of_data data) layout
  = from ShipSize coverage data.
Proof. reflexivity. Qed.

Lemma isNaN_coerced (v : JsValue) :
  isNaN (if isNaN v then JsNum (JsFinite 0) else v) = false.
Proof. by destruct (isNaN v) eqn:Hv. Qed.

(** C7. Building a player from a snapshot and taking its snapshot again gives
    the same uuid, username, AI flag, match, board and attacks, and the score
    passed through the constructor's coercion. The result is the snapshot
    itself whenever [isNaN] is false of the score, which is the case for
    every player that came out of the constructor. *)
Theorem toJSON_from_toJSON (ShipSize : ShipType → nat)
    (coverage : CellPosition → Orientation → nat → list CellPosition)
    (p : MatchPlayer) :
  toJSON (from ShipSize coverage (toJSON p))
  = mkData (uuid p) (username p)
           (if isNaN (score p) then JsNum (JsFinite 0) else score p)
           (isAi p) (match_ p) (board p) (attacks p) ∧
  (isNaN (score p) = false →
   toJSON (from ShipSize coverage (toJSON p)) = toJSON p) ∧
  (∀ opts layout,
      p = new_MatchPlayer ShipSize coverage opts layout →
      toJSON (from ShipSize coverage (toJSON p)) = toJSON p).
Proof.
  assert (isNaN (score p) = false →
          toJSON (from ShipSize coverage (toJSON p)) = toJSON p) as Hnum.
  { intros Hscore. unfold from, new_MatchPlayer, toJSON. simpl.
    unfold getUUID, getMatchInstanceUUID. simpl. by rewrite Hscore. }
  split_and!; [done|done|].
  intros opts layout ->. apply Hnum. simpl. apply isNaN_coerced.
Qed.

Lemma toJSON_from_toJSON_witness :
  toJSON (from demo_sizes expandCells (toJSON sunk_demo_player))
  = toJSON sunk_demo_player.
Proof.
  apply (proj1 (proj2 (toJSON_from_toJSON demo_sizes expandCells
                         sunk_demo_player))).
  reflexivity.
Defined.

(** ** C8: the score given to the constructor *)

(** C8, as stated, fails for a score that is not a number but converts to
    one: [null] is not a valid number, [isNaN(null)] is false, and the player
    keeps [null] as its score instead of 0. *)
Lemma null_score_is_kept :
  valid_number JsNull = false ∧
  score (new_MatchPlayer demo_sizes expandCells (demo_opts JsNull) demo_layout)
  = JsNull ∧
  JsNull ≠ JsNum (JsFinite 0).
Proof. split_and!; [reflexivity|reflexivity|discriminate]. Qed.

(** C8, amended. Construction completes normally for every input. A score
    that is missing ([undefined]) or NaN becomes 0; every other number,
    infinite ones included, is adopted unchanged; [null] and booleans, which
    [isNaN] does not flag, are adopted as they are. *)
Theorem new_MatchPlayer_score (ShipSize : ShipType → nat)
    (coverage : CellPosition → Orientation → nat → list CellPosition)
    (opts : MatchPlayerOpts) (layout : ShipPositionData) :
  run_new_MatchPlayer ShipSize coverage opts layout
  = Normal (new_MatchPlayer ShipSize coverage opts layout) ∧
  score (new_MatchPlayer ShipSize coverage opts layout)
  = match o_score opts with
    | JsUndefined => JsNum (JsFinite 0)
    | JsNum JsNaN => JsNum (JsFinite 0)
    | JsNum n => JsNum n
    | JsNull => JsNull
    | JsBool b => JsBool b
    end.
Proof.
  split; [reflexivity|]. simpl.
  destruct (o_score opts) as [| |[]|[]]; reflexivity.
Qed.

(** ** C1: the opponent view and the stored attacks *)

Lemma toOpponentJSON_attacks_copies l h : (toOpponentJSON_attacks l h).1 = l.
Proof.
  revert h. induction l as [|[ts attack result] l IH]; intros h; simpl; [done|].
  specialize (IH (alter delete_prediction attack h)).
  destruct (toOpponentJSON_attacks l _) as [copies h2]. simpl in *. by rewrite IH.
Qed.

Lemma toOpponentJSON_attacks_store l (h : heap) (i : loc) :
  (toOpponentJSON_attacks l h).2 !! i
  = if decide (i ∈ sa_attack <$> l) then delete_prediction <$> h !! i
    else h !! i.
Proof.
  revert h. induction l as [|a l IH]; intros h.
  - rewrite decide_False; [done|]. apply not_elem_of_nil.
  - specialize (IH (alter delete_prediction (sa_attack a) h)).
    cbn [toOpponentJSON_attacks]. rewrite fmap_cons.
    destruct (toOpponentJSON_attacks l _) as [copies h2]. cbn [snd] in *.
    rewrite IH, lookup_alter.
    destruct (decide (sa_attack a = i)) as [<-|Hne].
    + rewrite (decide_True (P := sa_attack a ∈ sa_attack a :: _))
        by (apply elem_of_cons; by left).
      case_decide; [|done]. by destruct (h !! sa_attack a).
    + destruct (decide (i ∈ sa_attack <$> l)) as [Hin|Hnotin].
      * by rewrite decide_True by (apply elem_of_cons; by right).
      * rewrite decide_False; [done|].
        rewrite elem_of_cons. intros [->|?]; done.
Qed.

(** What the call does to the stored history: every record keeps its
    timestamp, its reference and its result, and the payload it refers to
    loses its prediction. *)
Lemma toOpponentJSON_stored_attacks p h :
  stored_attacks p (toOpponentJSON p h).2
  = (λ e : Z * option AttackDataPayload * AttackResult,
       (e.1.1, delete_prediction <$> e.1.2, e.2)) <$> stored_attacks p h.
Proof.
  unfold stored_attacks, toOpponentJSON.
  pose proof (toOpponentJSON_attacks_store (attacks p) h) as Hstore.
  destruct (toOpponentJSON_attacks (attacks p) h) as [copies h']. simpl in *.
  rewrite <-list_fmap_compose. apply list_fmap_ext.
  intros j a Ha. simpl. rewrite Hstore.
  rewrite decide_True; [done|].
  apply list_elem_of_fmap. exists a. split; [done|].
  apply list_elem_of_lookup. by exists j.
Qed.

(** C1. The code at the failing input: before [toOpponentJSON] the stored
    attack reads its payload with the prediction 42; after the call the same
    stored attack reads the payload without it. The player's own fields are
    not touched; the payload object, shared by the stored record and its
    copy, is. *)
Theorem toOpponentJSON_deletes_stored_prediction :
  stored_attacks predicting_player predicting_heap
  = [(1000%Z, Some (mkPayload (3, 3)%Z (Some 42%Z)), miss (3, 3)%Z)] ∧
  stored_attacks predicting_player
                 (toOpponentJSON predicting_player predicting_heap).2
  = [(1000%Z, Some (mkPayload (3, 3)%Z None), miss (3, 3)%Z)] ∧
  (toOpponentJSON predicting_player predicting_heap).2 ≠ predicting_heap.
Proof.
  split_and!.
  - reflexivity.
  - rewrite toOpponentJSON_stored_attacks. reflexivity.
  - intros Heq.
    pose proof (toOpponentJSON_stored_attacks predicting_player predicting_heap)
      as Hstored.
    rewrite Heq in Hstored. vm_compute in Hstored. discriminate.
Qed.

(** * Further properties *)

(** ** Resolving incoming attacks *)

Lemma isSameOrigin_false a b : isSameOrigin a b = false ↔ a ≠ b.
Proof.
  destruct (isSameOrigin a b) eqn:Hab.
  - apply isSameOrigin_true in Hab. split; [done|]. by intros [].
  - split; [|done]. intros _ Heq. apply isSameOrigin_true in Heq. congruence.
Qed.

Lemma ship_skipped_covers origin ship :
  ship_skipped origin ship ↔
  ¬ (ship_sunk ship = false ∧ ∃ c, c ∈ ship_cells ship ∧ cell_origin c = origin).
Proof.
  unfold ship_skipped, ship_misses. rewrite Forall_forall. split.
  - intros [Hsunk|Hmiss] [Hunsunk (c & Hc & Horigin)]; [congruence|].
    specialize (Hmiss c Hc). apply isSameOrigin_false in Hmiss. done.
  - intros Hnot. destruct (ship_sunk ship) eqn:Hsunk; [by left|right].
    intros c Hc. apply isSameOrigin_false. intros Horigin.
    apply Hnot. split; [done|]. by exists c.
Qed.

(** X1. [determineAttackResult] reports a hit exactly when some ship that is
    not sunk has a cell at the attack's origin, and the result, hit or miss,
    always carries the origin of the attack. *)
Theorem determineAttackResult_hit_iff_covered (p : MatchPlayer)
    (atk : AttackDataPayload) :
  let r := (determineAttackResult p atk).1 in
  res_origin r = atk_origin atk ∧
  (res_hit r = true ↔
   ∃ key ship c,
     (key, ship) ∈ board_positions (board p) ∧ ship_sunk ship = false ∧
     c ∈ ship_cells ship ∧ cell_origin c = atk_origin atk).
Proof.
  intros r. subst r. unfold determineAttackResult.
  destruct (determineAttackResult_loop (atk_origin atk)
              (board_positions (board p))) as [[r positions']|] eqn:Hloop; simpl.
  - apply loop_Some in Hloop
      as (pre & key & ship & post & before & c & after
          & Hpos & _ & Hsunk & Hcells & _ & Hc & -> & _).
    apply isSameOrigin_true in Hc. split; [done|]. split; [|done].
    intros _. exists key, ship, c. rewrite Hpos, Hcells. split_and!; try done.
    + apply elem_of_app. right. left.
    + apply elem_of_app. right. left.
  - split; [done|]. split; [done|].
    intros (key & ship & c & Hin & Hsunk & Hc & Horigin).
    apply loop_None in Hloop. rewrite Forall_forall in Hloop.
    specialize (Hloop _ Hin). simpl in Hloop.
    apply ship_skipped_covers in Hloop. exfalso. apply Hloop.
    split; [done|]. by exists c.
Qed.


(** The two ways a call can go, with the state it leaves. *)
Lemma determineAttackResult_step (p : MatchPlayer) (atk : AttackDataPayload) :
  let origin := atk_origin atk in
  (Forall (λ e, ship_skipped origin e.2) (board_positions (board p)) ∧
   determineAttackResult p atk = (miss origin, p))
  ∨
  (∃ pre key ship post before c after,
      board_positions (board p) = pre ++ (key, ship) :: post ∧
      Forall (λ e, ship_skipped origin e.2) pre ∧
      ship_sunk ship = false ∧
      ship_cells ship = before ++ c :: after ∧
      Forall (λ c', isSameOrigin (cell_origin c') origin = false) before ∧
      isSameOrigin (cell_origin c) origin = true ∧
      determineAttackResult p atk
      = (hit_result c (forallb cell_hit (before ++ hit_cell c :: after)),
         set_positions p (pre ++ (key, hit_ship ship before c after) :: post))).
Proof.
  intros origin. unfold determineAttackResult. fold origin.
  destruct (determineAttackResult_loop origin (board_positions (board p)))
    as [[r positions']|] eqn:Hloop.
  - right. apply loop_Some in Hloop
      as (pre & key & ship & post & before & c & after
          & ? & ? & ? & ? & ? & ? & -> & ->).
    exists pre, key, ship, post, before, c, after. by split_and!.
  - left. split; [by apply loop_None|done].
Qed.

(** X2. An attack whose result does not say [destroyed: true] can be
    repeated: the same attack on the state it left returns the same result
    and leaves that state as it is. A cell that is already hit is reported
    as a hit again; nothing in the class refuses the second attack. *)
Theorem determineAttackResult_repeat (p : MatchPlayer) (atk : AttackDataPayload) :
  let r := (determineAttackResult p atk).1 in
  let p' := (determineAttackResult p atk).2 in
  res_destroyed r ≠ Some true →
  determineAttackResult p' atk = (r, p').
Proof.
  intros r p' Hnot. subst r p'.
  destruct (determineAttackResult_step p atk)
    as [[_ Hmiss]|(pre & key & ship & post & before & c & after
                   & Hpos & Hpre & Hsunk & Hcells & Hbefore & Hc & Hhit)].
  - rewrite Hmiss. simpl. exact Hmiss.
  - rewrite Hhit in *. simpl in *.
    destruct (forallb cell_hit (before ++ hit_cell c :: after)) eqn:Hall;
      [done|].
    unfold determineAttackResult. simpl.
    rewrite loop_app_skipped by done.
    rewrite (loop_hit _ _ _ _ before (hit_cell c) after)
      by (try done; simpl; by rewrite Hall).
    unfold hit_ship, hit_cell, hit_result in *. simpl.
    rewrite Hall. reflexivity.
Qed.

Lemma determineAttackResult_repeat_witness :
  determineAttackResult (determineAttackResult demo_player (attack_at 0 0)).2
                        (attack_at 0 0)
  = ((determineAttackResult demo_player (attack_at 0 0)).1,
     (determineAttackResult demo_player (attack_at 0 0)).2).
Proof.
  apply (determineAttackResult_repeat demo_player (attack_at 0 0)).
  vm_compute. discriminate.
Defined.

Lemma Forall2_refl_on {A : Type} (R : A → A → Prop) (l : list A) :
  (∀ x, R x x) → Forall2 R l l.
Proof. intros HR. induction l; by constructor. Qed.

Lemma cell_evolves_refl c : cell_evolves c c.
Proof. by split_and!. Qed.

Lemma ship_evolves_refl e : ship_evolves e e.
Proof.
  split_and!; try done. apply Forall2_refl_on, cell_evolves_refl.
Qed.

Lemma cell_evolves_trans c1 c2 c3 :
  cell_evolves c1 c2 → cell_evolves c2 c3 → cell_evolves c1 c3.
Proof.
  intros (? & ? & ?) (? & ? & ?). split_and!; [congruence..|auto].
Qed.

Lemma ship_evolves_trans e1 e2 e3 :
  ship_evolves e1 e2 → ship_evolves e2 e3 → ship_evolves e1 e3.
Proof.
  intros (? & ? & ? & ? & Hc12 & ?) (? & ? & ? & ? & Hc23 & ?).
  split_and!; [congruence..| |auto].
  eapply Forall2_trans; [|exact Hc12|exact Hc23].
  apply cell_evolves_trans.
Qed.

Lemma hit_ship_evolves key ship before c after :
  ship_sunk ship = false →
  ship_cells ship = before ++ c :: after →
  ship_evolves (key, ship) (key, hit_ship ship before c after).
Proof.
  intros Hsunk Hcells. split_and!; try done; simpl.
  - rewrite Hcells. apply Forall2_app; [apply Forall2_refl_on, cell_evolves_refl|].
    constructor; [by split_and!|apply Forall2_refl_on, cell_evolves_refl].
  - congruence.
Qed.

Lemma determineAttackResult_evolves p atk :
  Forall2 ship_evolves (board_positions (board p))
          (board_positions (board (determineAttackResult p atk).2)).
Proof.
  destruct (determineAttackResult_step p atk)
    as [[_ ->]|(pre & key & ship & post & before & c & after
                & Hpos & _ & Hsunk & Hcells & _ & _ & ->)]; simpl.
  - apply Forall2_refl_on, ship_evolves_refl.
  - rewrite Hpos. apply Forall2_app; [apply Forall2_refl_on, ship_evolves_refl|].
    constructor; [by apply hit_ship_evolves|].
    apply Forall2_refl_on, ship_evolves_refl.
Qed.

Lemma determineAttackResult_frame p atk :
  let p' := (determineAttackResult p atk).2 in
  uuid p' = uuid p ∧ username p' = username p ∧ isAi p' = isAi p ∧
  match_ p' = match_ p ∧ score p' = score p ∧ attacks p' = attacks p ∧
  board_valid (board p') = board_valid (board p).
Proof.
  destruct (determineAttackResult_step p atk)
    as [[_ ->]|(pre & key & ship & post & before & c & after
                & _ & _ & _ & _ & _ & _ & ->)]; by simpl.
Qed.

(** X3. Whatever series of attacks is resolved against a player, the board
    keeps its ships in the same order under the same keys, every ship keeps
    its type, origin, orientation and the origins and types of its cells, a
    cell that was hit stays hit and a ship that was sunk stays sunk; the
    attacks the player has made, the score, the valid flag and the identity
    fields are not touched. *)
Theorem resolve_all_evolves (p : MatchPlayer) (atks : list AttackDataPayload) :
  let p' := resolve_all p atks in
  Forall2 ship_evolves (board_positions (board p)) (board_positions (board p')) ∧
  uuid p' = uuid p ∧ username p' = username p ∧ isAi p' = isAi p ∧
  match_ p' = match_ p ∧ score p' = score p ∧ attacks p' = attacks p ∧
  board_valid (board p') = board_valid (board p).
Proof.
  revert p. induction atks as [|atk atks IH]; intros p; simpl.
  - split_and!; try done. apply Forall2_refl_on, ship_evolves_refl.
  - destruct (IH (determineAttackResult p atk).2)
      as (Hboard & ? & ? & ? & ? & ? & ? & ?).
    destruct (determineAttackResult_frame p atk) as (? & ? & ? & ? & ? & ? & ?).
    unfold resolve_all in *. simpl in *.
    split_and!; try congruence.
    eapply Forall2_trans; [|apply determineAttackResult_evolves|exact Hboard].
    apply ship_evolves_trans.
Qed.

Lemma sunk_count_app l1 l2 : sunk_count (l1 ++ l2) = sunk_count l1 + sunk_count l2.
Proof. unfold sunk_count. by rewrite filter_app, length_app. Qed.

Lemma sunk_count_cons key ship rest :
  sunk_count ((key, ship) :: rest)
  = (if ship_sunk ship then 1 else 0) + sunk_count rest.
Proof.
  unfold sunk_count. destruct (ship_sunk ship) eqn:Hsunk.
  - by rewrite filter_cons_True.
  - rewrite filter_cons_False; [done|]. simpl. congruence.
Qed.

(** X4. The number of sunk ships goes up by exactly one when the result says
    [destroyed: true] and is unchanged by every other call: counting the
    results with [destroyed: true] counts the ships sunk. *)
Theorem determineAttackResult_sunk_count (p : MatchPlayer)
    (atk : AttackDataPayload) :
  let r := (determineAttackResult p atk).1 in
  let p' := (determineAttackResult p atk).2 in
  sunk_count (board_positions (board p'))
  = match res_destroyed r with
    | Some true => S (sunk_count (board_positions (board p)))
    | _ => sunk_count (board_positions (board p))
    end.
Proof.
  intros r p'. subst r p'.
  destruct (determineAttackResult_step p atk)
    as [[_ ->]|(pre & key & ship & post & before & c & after
                & Hpos & _ & Hsunk & _ & _ & _ & ->)]; simpl; [done|].
  rewrite Hpos, !sunk_count_app, !sunk_count_cons. simpl. rewrite Hsunk.
  destruct (forallb cell_hit (before ++ hit_cell c :: after)); lia.
Qed.

(** ** Attacks and the opponent view *)

Lemma reveal_from_app revealed ships1 ships2 :
  reveal_from revealed (ships1 ++ ships2)
  = reveal_from (reveal_from revealed ships1) ships2.
Proof. unfold reveal_from. apply foldl_app. Qed.

Lemma reveal_from_unsunk revealed ship ships :
  ship_sunk ship = false →
  reveal_from revealed (ship :: ships) = reveal_from revealed ships.
Proof. intros Hsunk. simpl. by rewrite Hsunk. Qed.

(** X5. An attack whose result does not say [destroyed: true] leaves the
    board part of the opponent view as it was: the opponent learns about the
    board only through attacks that destroy a ship. *)
Theorem toOpponentJSON_board_after_attack (p : MatchPlayer)
    (atk : AttackDataPayload) (h : heap) :
  let r := (determineAttackResult p atk).1 in
  let p' := (determineAttackResult p atk).2 in
  res_destroyed r ≠ Some true →
  od_board (toOpponentJSON p' h).1 = od_board (toOpponentJSON p h).1.
Proof.
  intros r p' Hnot. subst r p'. rewrite !toOpponentJSON_board.
  destruct (determineAttackResult_step p atk)
    as [[_ Hmiss]|(pre & key & ship & post & before & c & after
                   & Hpos & _ & Hsunk & _ & _ & _ & Hhit)].
  - by rewrite Hmiss.
  - rewrite Hhit in *. simpl in *. rewrite Hpos. f_equal.
    destruct (forallb cell_hit (before ++ hit_cell c :: after)) eqn:Hall;
      [done|].
    unfold reveal_sunk. rewrite !fmap_app, !fmap_cons, !reveal_from_app. simpl snd.
    rewrite (reveal_from_unsunk _ ship) by done.
    rewrite (reveal_from_unsunk _ (hit_ship ship before c after)); [done|].
    simpl. exact Hall.
Qed.

Lemma toOpponentJSON_board_after_attack_witness :
  od_board (toOpponentJSON (determineAttackResult demo_player (attack_at 0 0)).2
                           ∅).1
  = od_board (toOpponentJSON demo_player ∅).1.
Proof.
  apply (toOpponentJSON_board_after_attack demo_player (attack_at 0 0) ∅).
  vm_compute. discriminate.
Defined.

(** X6. When the result says [destroyed: true], the board holds a sunk ship
    with a cell at the attack's origin and all its cells hit, and the
    opponent view made from that state has an entry under that ship's
    type: the ship is revealed by the very attack that destroys it. *)
Theorem destroyed_ship_is_revealed (p : MatchPlayer) (atk : AttackDataPayload)
    (h : heap) :
  let r := (determineAttackResult p atk).1 in
  let p' := (determineAttackResult p atk).2 in
  res_destroyed r = Some true →
  ∃ key ship,
    (key, ship) ∈ board_positions (board p') ∧
    ship_sunk ship = true ∧
    forallb cell_hit (ship_cells ship) = true ∧
    (∃ c, c ∈ ship_cells ship ∧ cell_origin c = atk_origin atk) ∧
    is_Some (obj_get (ship_type ship)
                     (opp_positions (od_board (toOpponentJSON p' h).1))).
Proof.
  intros r p' Hdestroyed. subst r p'. rewrite toOpponentJSON_board.
  destruct (determineAttackResult_step p atk)
    as [[_ Hmiss]|(pre & key & ship & post & before & c & after
                   & Hpos & _ & Hsunk & _ & _ & Hc & Hhit)].
  - rewrite Hmiss in Hdestroyed. done.
  - rewrite Hhit in *. simpl in *. injection Hdestroyed as Hall.
    exists key, (hit_ship ship before c after).
    assert ((key, hit_ship ship before c after)
            ∈ pre ++ (key, hit_ship ship before c after) :: post) as Hin.
    { apply elem_of_app. right. left. }
    split_and!; try done.
    + exists (hit_cell c). split; [|by apply isSameOrigin_true].
      simpl. apply elem_of_app. right. left.
    + apply obj_get_is_Some. unfold reveal_sunk. apply reveal_from_keys. right.
      exists (hit_ship ship before c after). split_and!; try done.
      apply list_elem_of_fmap. by exists (key, hit_ship ship before c after).
Qed.

Lemma destroyed_ship_is_revealed_witness :
  ∃ key ship,
    (key, ship) ∈ board_positions (board sunk_demo_player) ∧
    ship_sunk ship = true ∧
    forallb cell_hit (ship_cells ship) = true ∧
    (∃ c, c ∈ ship_cells ship ∧ cell_origin c = (1, 0)%Z) ∧
    is_Some (obj_get (ship_type ship)
                     (opp_positions
                        (od_board (toOpponentJSON sunk_demo_player ∅).1))).
Proof.
  apply (destroyed_ship_is_revealed
           (determineAttackResult demo_player (attack_at 0 0)).2
           (attack_at 1 0) ∅).
  reflexivity.
Defined.

(** ** Boards built by the class *)

Lemma obj_set_fresh {V : Type} (k : string) (v : V) o :
  k ∉ o.*1 → obj_set k v o = o ++ [(k, v)].
Proof.
  induction o as [|[k' v'] o IH]; simpl; intros Hfresh; [done|].
  apply not_elem_of_cons in Hfresh as [Hne Hfresh].
  rewrite decide_False by done. by rewrite IH.
Qed.

Lemma obj_set_NoDup {V : Type} (k : string) (v : V) o :
  NoDup o.*1 → NoDup (obj_set k v o).*1.
Proof.
  induction o as [|[k' v'] o IH]; simpl; intros Hnd.
  - apply NoDup_singleton.
  - apply NoDup_cons in Hnd as [Hfresh Hnd]. case_decide as Hk; simpl.
    + subst k'. by apply NoDup_cons.
    + apply NoDup_cons. split; [|by apply IH].
      rewrite obj_set_keys. intros [?|?]; done.
Qed.

Lemma place_ship_distinct (ShipSize : ShipType → nat)
    (coverage : CellPosition → Orientation → nat → list CellPosition)
    (rest : ShipPositionData) (acc : PlayerPositionData) :
  NoDup (acc.*1 ++ rest.*1) →
  foldl (place_ship ShipSize coverage) acc rest
  = acc ++ (fresh_ship ShipSize coverage <$> rest).
Proof.
  revert acc. induction rest as [|[type shipData] rest IH]; intros acc Hnd; simpl.
  - by rewrite app_nil_r.
  - rewrite obj_set_fresh.
    + rewrite IH.
      * by rewrite <-app_assoc.
      * rewrite fmap_app, <-app_assoc. exact Hnd.
    + simpl in Hnd. apply NoDup_app in Hnd as (_ & Hdisj & _).
      intros Hin. apply (Hdisj type Hin). left.
Qed.

(** X7. For a layout whose keys are distinct, as the keys of an object are,
    [createPositionDataWithCells] returns one ship per placement, in the
    order of the layout: each filed under the key of its placement, with
    that key as its type, the origin and orientation of the placement, one
    unhit cell of that type per covered position, and as its sunk flag the
    [sunk] of the placement when it carries one and false when it does
    not. *)
Theorem createPositionDataWithCells_distinct (ShipSize : ShipType → nat)
    (coverage : CellPosition → Orientation → nat → list CellPosition)
    (data : ShipPositionData) :
  NoDup data.*1 →
  createPositionDataWithCells ShipSize coverage data
  = fresh_ship ShipSize coverage <$> data.
Proof.
  intros Hnd. unfold createPositionDataWithCells.
  by rewrite place_ship_distinct.
Qed.

Lemma createPositionDataWithCells_distinct_witness :
  createPositionDataWithCells demo_sizes expandCells overlap_layout
  = fresh_ship demo_sizes expandCells <$> overlap_layout.
Proof.
  apply (createPositionDataWithCells_distinct demo_sizes expandCells
                                              overlap_layout).
  simpl. apply NoDup_cons. split.
  - intros Hin. elem_cases Hin. discriminate.
  - apply NoDup_singleton.
Defined.

Lemma createPositionDataWithCells_keyed (ShipSize : ShipType → nat)
    (coverage : CellPosition → Orientation → nat → list CellPosition)
    (data : ShipPositionData) :
  board_keyed (createPositionDataWithCells ShipSize coverage data).
Proof.
  split.
  - unfold createPositionDataWithCells.
    apply (foldl_invariant (λ o : PlayerPositionData, NoDup o.*1));
      [constructor|].
    intros updated [type shipData] Hnd. simpl. by apply obj_set_NoDup.
  - eapply Forall_impl; [apply createPositionDataWithCells_entries|].
    intros [key ship] (placement & _ & Hship). simpl in *. subst ship. simpl.
    split; [done|]. apply Forall_fmap, Forall_true. done.
Qed.

Lemma determineAttackResult_keyed p atk :
  board_keyed (board_positions (board p)) →
  board_keyed (board_positions (board (determineAttackResult p atk).2)).
Proof.
  intros [Hnd Hall].
  destruct (determineAttackResult_step p atk)
    as [[_ ->]|(pre & key & ship & post & before & c & after
                & Hpos & _ & _ & Hcells & _ & _ & ->)]; simpl; [done|].
  rewrite Hpos in Hnd, Hall. split.
  - by rewrite fmap_app, fmap_cons in *.
  - apply Forall_app in Hall as [Hpre Hrest].
    apply Forall_cons in Hrest as [[Htype Hctypes] Hpost]. simpl in *.
    apply Forall_app. split; [done|]. constructor; [|done]. simpl.
    split; [done|]. rewrite Hcells in Hctypes.
    apply Forall_app in Hctypes as [Hb Hrest].
    apply Forall_cons in Hrest as [Hc Ha].
    apply Forall_app. split; [done|]. by constructor.
Qed.

(** X8. In every state reached from a player constructed without a board,
    the board is filed by ship type: its keys are distinct, and each ship
    and each of its cells carries as its type the key the ship is stored
    under. This holds for any size table and any coverage function. *)
Theorem reachable_board_keyed (ShipSize : ShipType → nat)
    (coverage : CellPosition → Orientation → nat → list CellPosition)
    (s : State) :
  reachable ShipSize coverage s →
  board_keyed (board_positions (board s.1)).
Proof.
  intros (opts & layout & h0 & Hboard & Hsteps).
  eapply (rtc_ind_r (λ s, board_keyed (board_positions (board s.1))));
    [| |exact Hsteps].
  - simpl. rewrite Hboard. simpl. apply createPositionDataWithCells_keyed.
  - intros y z _ Hstep IH. destruct Hstep; simpl in *; try done.
    + apply createPositionDataWithCells_keyed.
    + by apply determineAttackResult_keyed.
Qed.

Lemma reachable_board_keyed_witness :
  board_keyed (board_positions
                 (board (determineAttackResult demo_player (attack_at 0 0)).2)).
Proof.
  apply (reachable_board_keyed demo_sizes expandCells
           ((determineAttackResult demo_player (attack_at 0 0)).2, ∅)).
  exists (demo_opts (JsNum (JsFinite 0))), demo_layout, ∅. split; [reflexivity|].
  eapply rtc_l; [|apply rtc_refl].
  apply (step_determineAttackResult demo_sizes expandCells demo_player ∅
                                    (attack_at 0 0)).
Defined.

Lemma reveal_from_all_unsunk revealed ships :
  Forall (λ ship, ship_sunk ship = false) ships →
  reveal_from revealed ships = revealed.
Proof.
  induction 1 as [|ship ships Hsunk _ IH]; [done|].
  by rewrite reveal_from_unsunk.
Qed.

Lemma createPositionDataWithCells_plain (ShipSize : ShipType → nat)
    (coverage : CellPosition → Orientation → nat → list CellPosition)
    (data : ShipPositionData) :
  plain_layout data →
  reveal_sunk (createPositionDataWithCells ShipSize coverage data) = [].
Proof.
  intros Hplain. unfold reveal_sunk. apply reveal_from_all_unsunk.
  apply Forall_fmap.
  eapply Forall_impl; [apply createPositionDataWithCells_entries|].
  intros [key ship] (placement & Hin & Hship). simpl in *. subst ship. simpl.
  unfold plain_layout in Hplain. rewrite Forall_forall in Hplain.
  specialize (Hplain _ Hin). simpl in Hplain.
  destruct (place_sunk placement) as [[]|]; done.
Qed.

(** On a board filed by type under distinct keys the loop of
    [toOpponentJSON] never overwrites an entry: it collects the sunk ships
    in the order of the board. *)
Lemma reveal_from_keyed (positions revealed : list (ShipType * StoredShipData)) :
  Forall (λ e, ship_type e.2 = e.1) positions →
  NoDup (revealed.*1 ++ positions.*1) →
  reveal_from revealed positions.*2
  = revealed ++ filter (λ e, ship_sunk e.2 = true) positions.
Proof.
  revert revealed.
  induction positions as [|[key ship] positions IH]; intros revealed Hkeyed Hnd.
  - simpl. by rewrite app_nil_r.
  - apply Forall_cons in Hkeyed as [Htype Hkeyed]. simpl in Htype.
    rewrite fmap_cons in Hnd. rewrite fmap_cons. cbn [snd reveal_from foldl].
    fold (reveal_from (if ship_sunk ship
                       then obj_set (ship_type ship) ship revealed
                       else revealed) positions.*2).
    destruct (ship_sunk ship) eqn:Hsunk.
    + rewrite filter_cons_True by done.
      rewrite Htype, obj_set_fresh.
      * rewrite IH; [by rewrite <-app_assoc|done|].
        rewrite fmap_app, <-app_assoc. exact Hnd.
      * apply NoDup_app in Hnd as (_ & Hdisj & _).
        intros Hin. apply (Hdisj key Hin). left.
    + rewrite filter_cons_False by (simpl; congruence).
      apply IH; [done|].
      apply NoDup_app in Hnd as (Hnd1 & Hdisj & Hnd2).
      apply NoDup_cons in Hnd2 as [_ Hnd2].
      apply NoDup_app. split_and!; [done| |done].
      intros x Hx Hx'. apply (Hdisj x Hx). by right.
Qed.

Lemma filter_fresh_ship (ShipSize : ShipType → nat)
    (coverage : CellPosition → Orientation → nat → list CellPosition)
    (data : list (ShipType * ShipPlacement)) :
  filter (λ e, ship_sunk e.2 = true) (fresh_ship ShipSize coverage <$> data)
  = fresh_ship ShipSize coverage
      <$> filter (λ e, place_sunk e.2 = Some true) data.
Proof.
  induction data as [|[key placement] data IH]; [done|].
  rewrite fmap_cons, !filter_cons, IH. simpl.
  destruct (place_sunk placement) as [[]|] eqn:Hsunk; simpl;
    repeat case_decide; done.
Qed.

Lemma createPositionDataWithCells_revealed (ShipSize : ShipType → nat)
    (coverage : CellPosition → Orientation → nat → list CellPosition)
    (data : list (ShipType * ShipPlacement)) :
  NoDup data.*1 →
  reveal_sunk (createPositionDataWithCells ShipSize coverage data)
  = fresh_ship ShipSize coverage
      <$> filter (λ e, place_sunk e.2 = Some true) data.
Proof.
  intros Hnd. unfold createPositionDataWithCells, reveal_sunk.
  rewrite place_ship_distinct by done. simpl.
  rewrite <-filter_fresh_ship.
  apply (reveal_from_keyed (fresh_ship ShipSize coverage <$> data) []).
  - apply Forall_fmap, Forall_true. done.
  - simpl. rewrite <-list_fmap_compose. exact Hnd.
Qed.

(** X9. What a board that has just been initialised shows the opponent.
    After [setShipPositionData], whatever the board held before, and after
    construction without a board: when no placement carries [sunk: true] the
    positions of the opponent view are empty; when the keys of the layout
    are distinct the positions are the ships of exactly the placements that
    carry [sunk: true], in the order of the layout, each with its cells
    unhit. The view carries the board's valid flag. *)
Theorem fresh_board_view (ShipSize : ShipType → nat)
    (coverage : CellPosition → Orientation → nat → list CellPosition)
    (p : MatchPlayer) (opts : MatchPlayerOpts)
    (data : list (ShipType * ShipPlacement)) (valid : bool) (h : heap) :
  let after_set := setShipPositionData ShipSize coverage p data valid in
  let constructed := new_MatchPlayer ShipSize coverage opts data in
  (plain_layout data →
   od_board (toOpponentJSON after_set h).1 = mkOppBoard valid [] ∧
   (o_board opts = None →
    od_board (toOpponentJSON constructed h).1 = mkOppBoard false [])) ∧
  (NoDup data.*1 →
   od_board (toOpponentJSON after_set h).1
   = mkOppBoard valid
       (fresh_ship ShipSize coverage
          <$> filter (λ e, place_sunk e.2 = Some true) data) ∧
   (o_board opts = None →
    od_board (toOpponentJSON constructed h).1
    = mkOppBoard false
        (fresh_ship ShipSize coverage
           <$> filter (λ e, place_sunk e.2 = Some true) data))).
Proof.
  intros after_set constructed. subst after_set constructed.
  rewrite !toOpponentJSON_board. simpl. split.
  - intros Hplain. split.
    + by rewrite createPositionDataWithCells_plain.
    + intros ->. simpl. by rewrite createPositionDataWithCells_plain.
  - intros Hnd. split.
    + by rewrite createPositionDataWithCells_revealed.
    + intros ->. simpl. by rewrite createPositionDataWithCells_revealed.
Qed.

Lemma fresh_board_view_witness :
  od_board (toOpponentJSON demo_player ∅).1 = mkOppBoard false [] ∧
  od_board (toOpponentJSON carried_sunk_player ∅).1
  = mkOppBoard true
      [("Destroyer",
        mkShip true "Destroyer" (0, 0)%Z horizontal
               [mkCell (0, 0)%Z false "Destroyer";
                mkCell (1, 0)%Z false "Destroyer"])].
Proof.
  split.
  - refine (proj1 (proj1 (fresh_board_view demo_sizes expandCells demo_player
                            (demo_opts (JsNum (JsFinite 0))) demo_layout
                            false ∅) _)).
    by repeat constructor.
  - refine (proj1 (proj2 (fresh_board_view demo_sizes expandCells demo_player
                            (demo_opts (JsNum (JsFinite 0)))
                            carried_sunk_layout true ∅) _)).
    apply NoDup_singleton.
Defined.

(** ** The attacks a player has made *)

Lemma hasAttackedLocation_true (p : MatchPlayer) (h : heap)
    (origin : CellPosition) :
  hasAttackedLocation p h origin = true
  ↔ ∃ a, a ∈ attacks p ∧ attack_is_at h origin a.
Proof.
  unfold hasAttackedLocation, attack_is_at. rewrite existsb_exists. split.
  - intros (a & Ha & Hat). exists a. split; [by apply list_elem_of_In|].
    destruct (h !! sa_attack a) as [pl|]; [|done].
    exists pl. split; [done|]. by apply isSameOrigin_true.
  - intros (a & Ha & pl & Hpl & Horigin). exists a.
    split; [by apply list_elem_of_In|]. rewrite Hpl. by apply isSameOrigin_true.
Qed.

(** X10. [hasAttackedLocation] answers true exactly for the origins of the
    payloads of the recorded attacks. After [recordAttackResult] the origin
    of the recorded payload counts as attacked, every location attacked
    before still does, no other location does, and the number of shots fired
    has gone up by one. The same origin can be recorded twice: nothing is
    checked. *)
Theorem recordAttackResult_hasAttackedLocation (p : MatchPlayer) (h : heap)
    (attack : loc) (result : AttackResult) (now : Z) (origin : CellPosition) :
  let p' := recordAttackResult p attack result now in
  (hasAttackedLocation p' h origin = true
   ↔ hasAttackedLocation p h origin = true ∨
     ∃ pl, h !! attack = Some pl ∧ atk_origin pl = origin) ∧
  getShotsFiredCount p' = S (getShotsFiredCount p) ∧
  hasAttacked p' = true.
Proof.
  intros p'. subst p'. split_and!.
  - rewrite !hasAttackedLocation_true. simpl. split.
    + intros (a & Ha & Hat). apply elem_of_app in Ha as [Ha|Ha].
      * left. by exists a.
      * right. apply list_elem_of_singleton in Ha. by subst a.
    + intros [(a & Ha & Hat)|Hnew].
      * exists a. split; [apply elem_of_app; by left|done].
      * exists (mkAttack now attack result).
        split; [apply elem_of_app; right; by left|done].
  - unfold getShotsFiredCount. simpl. rewrite length_app. simpl. lia.
  - unfold hasAttacked. simpl. rewrite length_app. simpl.
    apply bool_decide_eq_true. lia.
Qed.

Lemma array_sort_snoc {A : Type} (cmp : A → A → Z) (l : list A) (x : A) :
  array_sort cmp (l ++ [x]) = sort_insert cmp x (array_sort cmp l).
Proof. unfold array_sort. by rewrite foldl_app. Qed.

Lemma sort_insert_most_recent (a : StoredAttackData) sorted :
  (∀ b, b ∈ sorted → (sa_ts b < sa_ts a)%Z) →
  sort_insert most_recent_first a sorted = a :: sorted.
Proof.
  destruct sorted as [|y sorted]; [done|]. intros Hnewer. simpl.
  assert ((most_recent_first a y <? 0)%Z = true) as ->; [|done].
  apply most_recent_first_neg, Hnewer. left.
Qed.

(** X11. When an attack is recorded with a timestamp later than every
    recorded one, the run of hits grows by one if the result is a hit and
    falls back to 0 if it is a miss. *)
Theorem recordAttackResult_getContinuousHitsCount (p : MatchPlayer)
    (attack : loc) (result : AttackResult) (now : Z) :
  (∀ a, a ∈ attacks p → (sa_ts a < now)%Z) →
  getContinuousHitsCount (recordAttackResult p attack result now)
  = if res_hit result then S (getContinuousHitsCount p) else 0.
Proof.
  intros Hnewer. unfold getContinuousHitsCount. simpl.
  rewrite array_sort_snoc, sort_insert_most_recent.
  - simpl. destruct (res_hit result); [|done].
    by rewrite !count_until_miss_hit_run.
  - intros b Hb. rewrite array_sort_perm in Hb. simpl. by apply Hnewer.
Qed.

Lemma recordAttackResult_getContinuousHitsCount_witness :
  getContinuousHitsCount
    (recordAttackResult (with_attacks [old_miss; hit_one]) 2
                        (sa_result hit_two) 300)
  = S (getContinuousHitsCount (with_attacks [old_miss; hit_one])).
Proof.
  apply (recordAttackResult_getContinuousHitsCount
           (with_attacks [old_miss; hit_one]) 2 (sa_result hit_two) 300).
  intros a Ha. simpl in Ha. elem_cases Ha; subst a; reflexivity.
Defined.

Lemma hit_run_length_filter l :
  length (hit_run l)
  ≤ length (filter (λ a, res_hit (sa_result a) = true) l).
Proof.
  induction l as [|a l IH]; [done|]. cbn [hit_run].
  destruct (res_hit (sa_result a)) eqn:Ha.
  - rewrite filter_cons_True by done. cbn [length]. lia.
  - cbn [length]. lia.
Qed.

Lemma hit_run_full l :
  length (hit_run l) = length l
  ↔ Forall (λ a, res_hit (sa_result a) = true) l.
Proof.
  induction l as [|a l IH]; simpl.
  - split; [constructor|done].
  - destruct (res_hit (sa_result a)) eqn:Ha; simpl.
    + rewrite Forall_cons. split.
      * intros [= Hlen]. split; [done|]. by apply IH.
      * intros [_ Hall]. f_equal. by apply IH.
    + split; [done|]. intros Hall. apply Forall_cons in Hall as [? _]. congruence.
Qed.

(** X12. The run of hits is never longer than the number of recorded hits,
    which is never more than the number of shots fired; and it equals the
    number of shots fired exactly when every recorded attack is a hit. *)
Theorem getContinuousHitsCount_bounds (p : MatchPlayer) :
  getContinuousHitsCount p
  ≤ length (filter (λ a, res_hit (sa_result a) = true) (attacks p)) ∧
  length (filter (λ a, res_hit (sa_result a) = true) (attacks p))
  ≤ getShotsFiredCount p ∧
  (getContinuousHitsCount p = getShotsFiredCount p
   ↔ Forall (λ a, res_hit (sa_result a) = true) (attacks p)).
Proof.
  unfold getContinuousHitsCount, getShotsFiredCount.
  rewrite count_until_miss_hit_run. simpl.
  pose proof (array_sort_perm most_recent_first (attacks p)) as Hperm.
  assert (length (filter (λ a, res_hit (sa_result a) = true) (attacks p))
          = length (filter (λ a, res_hit (sa_result a) = true)
                           (array_sort most_recent_first (attacks p))))
    as Hhits by by rewrite Hperm.
  split_and!.
  - rewrite Hhits. apply hit_run_length_filter.
  - apply length_filter.
  - rewrite <-(Permutation_length Hperm), hit_run_full.
    split; intros Hall; [by rewrite <-Hperm|by rewrite Hperm].
Qed.

(** X13. When the recorded timestamps are pairwise distinct the count does
    not depend on the order in which the attacks are stored: two players
    holding the same attacks in different orders get the same count. *)
Theorem getContinuousHitsCount_order_irrelevant (p q : MatchPlayer) :
  NoDup (sa_ts <$> attacks p) →
  attacks p ≡ₚ attacks q →
  getContinuousHitsCount p = getContinuousHitsCount q.
Proof.
  intros Hnd Hperm. unfold getContinuousHitsCount.
  assert (array_sort most_recent_first (attacks p)
          = array_sort most_recent_first (attacks q)) as ->; [|done].
  apply (StronglySorted_unique_strong more_recent).
  - intros a b _ _ Hab Hba. unfold more_recent in *. lia.
  - apply recent_first_strict; [apply array_sort_recent_first|].
    by rewrite array_sort_perm.
  - apply recent_first_strict; [apply array_sort_recent_first|].
    by rewrite array_sort_perm, <-Hperm.
  - by rewrite !array_sort_perm.
Qed.

Lemma getContinuousHitsCount_order_irrelevant_witness :
  getContinuousHitsCount (with_attacks [old_miss; hit_two; hit_one])
  = getContinuousHitsCount (with_attacks [hit_one; old_miss; hit_two]).
Proof.
  apply (getContinuousHitsCount_order_irrelevant
           (with_attacks [old_miss; hit_two; hit_one])
           (with_attacks [hit_one; old_miss; hit_two])).
  - simpl. apply (bool_decide_unpack _). vm_compute. reflexivity.
  - simpl. symmetry. apply (Permutation_cons_append [old_miss; hit_two] hit_one).
Defined.

(** ** The attacks in the opponent view *)

Lemma toOpponentJSON_unfold (p : MatchPlayer) (h : heap) :
  toOpponentJSON p h
  = (mkOpponent (username p) (attacks p)
                (mkOppBoard (board_valid (board p))
                            (reveal_sunk (board_positions (board p)))),
     (toOpponentJSON_attacks (attacks p) h).2).
Proof.
  unfold toOpponentJSON.
  pose proof (toOpponentJSON_attacks_copies (attacks p) h) as Hcopies.
  destruct (toOpponentJSON_attacks (attacks p) h) as [copies h'].
  simpl in *. by subst copies.
Qed.

Lemma toOpponentJSON_store (p : MatchPlayer) (h : heap) (i : loc) :
  (toOpponentJSON p h).2 !! i
  = if decide (i ∈ sa_attack <$> attacks p) then delete_prediction <$> h !! i
    else h !! i.
Proof. rewrite toOpponentJSON_unfold. simpl. apply toOpponentJSON_attacks_store. Qed.

(** X14. The opponent view lists the player's attacks in their order, each
    with its timestamp, its payload and its result, under the player's
    username. Read from the store the call leaves, no payload of a listed
    attack carries a prediction, and each still has the origin it had. *)
Theorem toOpponentJSON_attacks_sanitised (p : MatchPlayer) (h : heap) :
  let view := (toOpponentJSON p h).1 in
  let h' := (toOpponentJSON p h).2 in
  od_username view = username p ∧
  od_attacks view = attacks p ∧
  ∀ a, a ∈ od_attacks view →
       match h !! sa_attack a with
       | Some pl => h' !! sa_attack a = Some (mkPayload (atk_origin pl) None)
       | None => h' !! sa_attack a = None
       end.
Proof.
  intros view h'. subst view h'. split_and!.
  - by rewrite toOpponentJSON_unfold.
  - by rewrite toOpponentJSON_unfold.
  - intros a Ha. rewrite toOpponentJSON_unfold in Ha. simpl in Ha.
    rewrite toOpponentJSON_store.
    rewrite decide_True by by apply list_elem_of_fmap_2.
    by destruct (h !! sa_attack a).
Qed.

(** X15. [toOpponentJSON] changes the store only in the predictions of the
    payloads the player's attacks refer to: a payload no stored attack
    refers to is left as it is, no payload appears or disappears, and every
    payload keeps its origin. *)
Theorem toOpponentJSON_store_footprint (p : MatchPlayer) (h : heap) (i : loc) :
  let h' := (toOpponentJSON p h).2 in
  (i ∉ sa_attack <$> attacks p → h' !! i = h !! i) ∧
  (is_Some (h' !! i) ↔ is_Some (h !! i)) ∧
  atk_origin <$> h' !! i = atk_origin <$> h !! i.
Proof.
  intros h'. subst h'. rewrite toOpponentJSON_store. split_and!.
  - intros Hnot. by rewrite decide_False.
  - case_decide; [|done]. by rewrite fmap_is_Some.
  - case_decide; [|done]. by destruct (h !! i).
Qed.

Lemma toOpponentJSON_store_footprint_witness :
  (toOpponentJSON predicting_player predicting_heap).2 !! 7
  = predicting_heap !! 7.
Proof.
  apply (proj1 (toOpponentJSON_store_footprint predicting_player
                  predicting_heap 7)).
  simpl. intros Hin. elem_cases Hin. discriminate.
Defined.

(** X16. Calling [toOpponentJSON] a second time changes nothing more and
    returns the same view: the predictions are gone after the first call. *)
Theorem toOpponentJSON_idempotent (p : MatchPlayer) (h : heap) :
  toOpponentJSON p (toOpponentJSON p h).2 = toOpponentJSON p h.
Proof.
  rewrite (toOpponentJSON_unfold p (toOpponentJSON p h).2).
  rewrite (toOpponentJSON_unfold p h) at 2. f_equal.
  apply map_eq. intros i.
  rewrite !toOpponentJSON_attacks_store, toOpponentJSON_store.
  case_decide; [|done]. by destruct (h !! i).
Qed.

(** X17. [toOpponentJSON] does not change what [hasAttackedLocation]
    answers, for this player or for any other player whose attacks refer to
    the same store. *)
Theorem toOpponentJSON_keeps_hasAttackedLocation (p q : MatchPlayer)
    (h : heap) (origin : CellPosition) :
  hasAttackedLocation q (toOpponentJSON p h).2 origin
  = hasAttackedLocation q h origin.
Proof.
  unfold hasAttackedLocation.
  induction (attacks q) as [|a l IH]; [done|]. simpl. rewrite IH. f_equal.
  rewrite toOpponentJSON_store. case_decide; [|done].
  by destruct (h !! sa_attack a).
Qed.

(** ** Sinking a ship *)

Lemma mark_hits_nil cells :
  Forall (λ c, cell_hit c = false) cells → mark_hits [] cells = cells.
Proof.
  induction 1 as [|[o hit t] cells Hc _ IH]; [done|].
  unfold mark_hits in *. rewrite fmap_cons, IH. simpl in *. by subst hit.
Qed.

Lemma mark_hits_all attacked cells :
  (∀ c, c ∈ cells → cell_origin c ∈ attacked) →
  mark_hits attacked cells = hit_cell <$> cells.
Proof.
  intros Hall. unfold mark_hits. apply list_fmap_ext. intros i c Hc.
  unfold hit_cell. rewrite bool_decide_eq_true_2; [done|].
  apply Hall. apply list_elem_of_lookup. by exists i.
Qed.

Lemma mark_hits_more o attacked cells :
  o ∉ cell_origin <$> cells →
  mark_hits (o :: attacked) cells = mark_hits attacked cells.
Proof.
  intros Hfresh. unfold mark_hits. apply list_fmap_ext. intros i c Hc.
  f_equal. apply bool_decide_ext. rewrite elem_of_cons.
  split; [|by right]. intros [Heq|?]; [|done].
  exfalso. apply Hfresh. rewrite <-Heq. apply list_elem_of_fmap_2.
  apply list_elem_of_lookup. by exists i.
Qed.

Lemma mark_hits_misses o attacked cells :
  o ∉ cell_origin <$> cells →
  Forall (λ c, isSameOrigin (cell_origin c) o = false) (mark_hits attacked cells).
Proof.
  intros Hfresh. unfold mark_hits. apply Forall_fmap, Forall_forall.
  intros c Hc. simpl. apply isSameOrigin_false. intros Heq.
  apply Hfresh. rewrite <-Heq. by apply list_elem_of_fmap_2.
Qed.

Lemma forallb_mark_hits attacked cells :
  forallb cell_hit (mark_hits attacked cells) = true
  ↔ ∀ c, c ∈ cells → cell_origin c ∈ attacked.
Proof.
  induction cells as [|c0 cells IH].
  - split; [|done]. intros _ c Hc. by apply elem_of_nil in Hc.
  - unfold mark_hits in *. rewrite fmap_cons. cbn [forallb cell_hit].
    rewrite andb_true_iff, bool_decide_eq_true, IH. split.
    + intros [H0 Hrest] c Hc. apply elem_of_cons in Hc as [->|Hc]; auto.
    + intros Hall. split; [apply Hall; left|].
      intros c Hc. apply Hall. by right.
Qed.

(** One attack on a cell that has not been attacked yet. *)
Lemma attack_marked_ship (p : MatchPlayer) (pre post : PlayerPositionData)
    (key t : ShipType) (o : CellPosition) (r : Orientation)
    (cells : list StoredShipDataCell) (attacked : list CellPosition)
    (atk : AttackDataPayload) :
  board_positions (board p)
  = pre ++ (key, mkShip false t o r (mark_hits attacked cells)) :: post →
  Forall (λ e, ship_skipped (atk_origin atk) e.2) pre →
  NoDup (cell_origin <$> cells) →
  atk_origin atk ∈ cell_origin <$> cells →
  let attacked' := atk_origin atk :: attacked in
  let destroyed := forallb cell_hit (mark_hits attacked' cells) in
  ∃ c, c ∈ cells ∧ cell_origin c = atk_origin atk ∧
  determineAttackResult p atk
  = (mkResult true (atk_origin atk) (Some (cell_type c)) (Some destroyed),
     set_positions p
       (pre ++ (key, mkShip destroyed t o r (mark_hits attacked' cells)) :: post)).
Proof.
  intros Hpos Hpre Hnd Hin attacked' destroyed.
  apply list_elem_of_fmap in Hin as (c & Horigin & Hc).
  apply list_elem_of_split in Hc as (cs1 & cs2 & ->).
  rewrite fmap_app, fmap_cons in Hnd.
  apply NoDup_app in Hnd as (_ & Hdisj & Hnd2).
  apply NoDup_cons in Hnd2 as [Hfresh2 _].
  assert (atk_origin atk ∉ cell_origin <$> cs1) as Hfresh1.
  { intros Hin1. apply (Hdisj _ Hin1). rewrite Horigin. left. }
  rewrite <-Horigin in Hfresh2.
  exists c. split_and!; [apply elem_of_app; right; left|done|].
  assert (mark_hits attacked' (cs1 ++ c :: cs2)
          = mark_hits attacked cs1
            ++ hit_cell (mkCell (cell_origin c)
                                (bool_decide (cell_origin c ∈ attacked))
                                (cell_type c))
            :: mark_hits attacked cs2) as Hmark.
  { subst attacked'. unfold mark_hits at 1. rewrite fmap_app, fmap_cons.
    fold (mark_hits (atk_origin atk :: attacked) cs1).
    fold (mark_hits (atk_origin atk :: attacked) cs2).
    rewrite !mark_hits_more by done. f_equal. f_equal.
    unfold hit_cell. simpl. f_equal. apply bool_decide_eq_true.
    rewrite Horigin. left. }
  unfold determineAttackResult. rewrite Hpos, loop_app_skipped by done.
  rewrite (loop_hit _ _ _ _ (mark_hits attacked cs1)
             (mkCell (cell_origin c) (bool_decide (cell_origin c ∈ attacked))
                     (cell_type c))
             (mark_hits attacked cs2)).
  - subst destroyed. rewrite Hmark. unfold hit_result, hit_ship. simpl.
    by rewrite Horigin.
  - done.
  - simpl. unfold mark_hits. by rewrite fmap_app, fmap_cons.
  - by apply mark_hits_misses.
  - simpl. rewrite <-Horigin. apply isSameOrigin_refl.
Qed.

Lemma resolve_each_marked_ship (atks : list AttackDataPayload) :
  ∀ (p : MatchPlayer) (pre post : PlayerPositionData) (key t : ShipType)
    (o : CellPosition) (r : Orientation) (cells : list StoredShipDataCell)
    (attacked : list CellPosition),
  atks ≠ [] →
  board_positions (board p)
  = pre ++ (key, mkShip false t o r (mark_hits attacked cells)) :: post →
  Forall (λ atk, Forall (λ e, ship_skipped (atk_origin atk) e.2) pre) atks →
  NoDup (cell_origin <$> cells) →
  NoDup (atk_origin <$> atks) →
  (∀ x, x ∈ cell_origin <$> cells ↔ x ∈ attacked ∨ x ∈ atk_origin <$> atks) →
  (∀ x, x ∈ attacked → x ∉ atk_origin <$> atks) →
  Forall (λ res, res_hit res = true) (resolve_each p atks).1 ∧
  res_destroyed <$> (resolve_each p atks).1
  = replicate (length atks - 1) (Some false) ++ [Some true] ∧
  board_positions (board (resolve_each p atks).2)
  = pre ++ (key, mkShip true t o r (hit_cell <$> cells)) :: post.
Proof.
  induction atks as [|atk rest IH];
    intros p pre post key t o r cells attacked Hne Hpos Hpre Hnd Hnda Hcover Hdisj;
    [done|].
  apply Forall_cons in Hpre as [Hpre1 Hpre]. rewrite fmap_cons in Hnda.
  apply NoDup_cons in Hnda as [Hfresh Hnda].
  assert (atk_origin atk ∈ cell_origin <$> cells) as Hin.
  { apply Hcover. right. rewrite fmap_cons. left. }
  destruct (attack_marked_ship p pre post key t o r cells attacked atk
              Hpos Hpre1 Hnd Hin) as (c & _ & _ & Hstep).
  cbn [resolve_each]. rewrite Hstep. clear Hstep.
  destruct rest as [|atk2 rest].
  - (* the last cell *)
    assert (∀ c', c' ∈ cells → cell_origin c' ∈ atk_origin atk :: attacked) as Hall.
    { intros c' Hc'.
      assert (cell_origin c' ∈ cell_origin <$> cells) as Hx
        by by apply list_elem_of_fmap_2.
      apply Hcover in Hx as [?|Hx]; [by right|].
      rewrite fmap_cons in Hx. apply elem_of_cons in Hx as [->|Hx]; [left|].
      by apply elem_of_nil in Hx. }
    assert (forallb cell_hit (mark_hits (atk_origin atk :: attacked) cells) = true)
      as -> by by apply forallb_mark_hits.
    simpl. rewrite mark_hits_all by done. split_and!; [by repeat constructor|done..].
  - (* cells remain *)
    assert (forallb cell_hit (mark_hits (atk_origin atk :: attacked) cells) = false)
      as ->.
    { apply not_true_is_false. rewrite forallb_mark_hits. intros Hall.
      assert (atk_origin atk2 ∈ cell_origin <$> cells) as Hx.
      { apply Hcover. right. rewrite !fmap_cons. right. left. }
      apply list_elem_of_fmap in Hx as (c' & Hx & Hc').
      specialize (Hall c' Hc'). rewrite <-Hx in Hall.
      apply elem_of_cons in Hall as [Heq|Hattacked].
      - apply Hfresh. rewrite <-Heq, fmap_cons. left.
      - apply (Hdisj _ Hattacked). rewrite !fmap_cons. right. left. }
    specialize (IH (set_positions p
                      (pre ++ (key, mkShip false t o r
                                      (mark_hits (atk_origin atk :: attacked) cells))
                           :: post))
                   pre post key t o r cells (atk_origin atk :: attacked)).
    destruct IH as (Hhits & Hdestroyed & Hfinal); try done.
    + intros x. rewrite Hcover, fmap_cons, !elem_of_cons. tauto.
    + intros x Hx Hxin. apply elem_of_cons in Hx as [->|Hx]; [done|].
      apply (Hdisj _ Hx). rewrite fmap_cons. by right.
    + destruct (resolve_each _ (atk2 :: rest)) as [rs p2]. cbn [fst snd] in *.
      split_and!; [by constructor| |done].
      rewrite fmap_cons, Hdestroyed. cbn [length res_destroyed].
      by replace (S (S (length rest)) - 1) with (S (S (length rest) - 1)) by lia.
Qed.

(** X18. Take a ship that is not sunk, with no cell hit and no two cells at
    the same origin, and attack each of its cells once, in any order, while
    no unsunk ship earlier in the board covers those cells. Every attack is
    reported as a hit, [destroyed] is false on all but the last and true on
    the last, and the ship ends up stored sunk with all its cells hit, the
    rest of the board being as it was. *)
Theorem attacking_every_cell_sinks_ship (p : MatchPlayer)
    (pre post : PlayerPositionData) (key : ShipType) (ship : StoredShipData)
    (atks : list AttackDataPayload) :
  board_positions (board p) = pre ++ (key, ship) :: post →
  ship_sunk ship = false →
  Forall (λ c, cell_hit c = false) (ship_cells ship) →
  NoDup (cell_origin <$> ship_cells ship) →
  atks ≠ [] →
  atk_origin <$> atks ≡ₚ cell_origin <$> ship_cells ship →
  Forall (λ atk, Forall (λ e, ship_skipped (atk_origin atk) e.2) pre) atks →
  Forall (λ res, res_hit res = true) (resolve_each p atks).1 ∧
  res_destroyed <$> (resolve_each p atks).1
  = replicate (length atks - 1) (Some false) ++ [Some true] ∧
  board_positions (board (resolve_each p atks).2)
  = pre ++ (key, mkShip true (ship_type ship) (ship_origin ship)
                        (ship_orientation ship)
                        (hit_cell <$> ship_cells ship)) :: post.
Proof.
  intros Hpos Hsunk Hunhit Hnd Hne Hperm Hpre.
  destruct ship as [sunk t o r cells]. simpl in *. subst sunk.
  apply (resolve_each_marked_ship atks p pre post key t o r cells []);
    try done.
  - by rewrite mark_hits_nil.
  - by rewrite Hperm.
  - intros x. rewrite Hperm, elem_of_nil. tauto.
  - intros x Hx. by apply elem_of_nil in Hx.
Qed.

Lemma attacking_every_cell_sinks_ship_witness :
  Forall (λ res, res_hit res = true)
         (resolve_each demo_player [attack_at 1 0; attack_at 0 0]).1 ∧
  res_destroyed <$> (resolve_each demo_player [attack_at 1 0; attack_at 0 0]).1
  = [Some false; Some true] ∧
  board_positions
    (board (resolve_each demo_player [attack_at 1 0; attack_at 0 0]).2)
  = [("Destroyer",
      mkShip true "Destroyer" (0, 0)%Z horizontal
             [mkCell (0, 0)%Z true "Destroyer";
              mkCell (1, 0)%Z true "Destroyer"])].
Proof.
  apply (attacking_every_cell_sinks_ship demo_player [] [] "Destroyer"
           (mkShip false "Destroyer" (0, 0)%Z horizontal
                   [mkCell (0, 0)%Z false "Destroyer";
                    mkCell (1, 0)%Z false "Destroyer"])
           [attack_at 1 0; attack_at 0 0]).
  - reflexivity.
  - reflexivity.
  - repeat constructor.
  - simpl. apply (bool_decide_unpack _). vm_compute. reflexivity.
  - discriminate.
  - simpl. apply Permutation_swap.
  - repeat constructor.
Defined.

(** ** The score after construction *)

(** X19. Whatever is passed as the score, [isNaN] is false of the score of
    the constructed player, and that score is either 0 or the value passed;
    a player built again from the snapshot of a constructed player has the
    same score. *)
Theorem new_MatchPlayer_score_is_no_NaN (ShipSize : ShipType → nat)
    (coverage : CellPosition → Orientation → nat → list CellPosition)
    (opts : MatchPlayerOpts) (layout : ShipPositionData) :
  let p := new_MatchPlayer ShipSize coverage opts layout in
  isNaN (getScore p) = false ∧
  (getScore p = JsNum (JsFinite 0) ∨ getScore p = o_score opts) ∧
  getScore (from ShipSize coverage (toJSON p)) = getScore p.
Proof.
  intros p. subst p. unfold getScore, from, toJSON. simpl.
  destruct (isNaN (o_score opts)) eqn:Hscore; simpl.
  - split_and!; [done|by left|done].
  - rewrite Hscore. split_and!; [done|by right|done].
Qed.

(** ** The opponent view of a board built by the class *)

Lemma reachable_keyed (ShipSize : ShipType → nat)
    (coverage : CellPosition → Orientation → nat → list CellPosition)
    (s : State) :
  reachable ShipSize coverage s →
  board_keyed (board_positions (board s.1)).
Proof.
  intros (opts & layout & h0 & Hboard & Hsteps).
  eapply (rtc_ind_r (λ s, board_keyed (board_positions (board s.1))));
    [| |exact Hsteps].
  - simpl. rewrite Hboard. simpl. apply createPositionDataWithCells_keyed.
  - intros y z _ Hstep IH. destruct Hstep; simpl in *; try done.
    + apply createPositionDataWithCells_keyed.
    + by apply determineAttackResult_keyed.
Qed.

(** X20. In every state reached from a player constructed without a board,
    the positions of the opponent view are exactly the sunk ships of the
    board, in the order of the board, each under the key it is stored
    under: no entry is overwritten and nothing else is shown. *)
Theorem reachable_view_is_sunk_ships (ShipSize : ShipType → nat)
    (coverage : CellPosition → Orientation → nat → list CellPosition)
    (s : State) (h : heap) :
  reachable ShipSize coverage s →
  opp_positions (od_board (toOpponentJSON s.1 h).1)
  = filter (λ e, ship_sunk e.2 = true)
           (board_positions (board s.1) : list (ShipType * StoredShipData)).
Proof.
  intros Hreach. apply reachable_keyed in Hreach as [Hnd Hkeyed].
  rewrite toOpponentJSON_board. simpl. unfold reveal_sunk.
  apply (reveal_from_keyed (board_positions (board s.1)) []).
  - eapply Forall_impl; [exact Hkeyed|]. by intros e [? _].
  - exact Hnd.
Qed.

Lemma reachable_view_is_sunk_ships_witness :
  opp_positions (od_board (toOpponentJSON sunk_demo_player ∅).1)
  = filter (λ e, ship_sunk e.2 = true)
           (board_positions (board sunk_demo_player)
            : list (ShipType * StoredShipData)).
Proof.
  apply (reachable_view_is_sunk_ships demo_sizes expandCells
           (sunk_demo_player, ∅) ∅).
  exists (demo_opts (JsNum (JsFinite 0))), demo_layout, ∅. split; [reflexivity|].
  eapply rtc_l;
    [apply (step_determineAttackResult demo_sizes expandCells demo_player ∅
                                       (attack_at 0 0))|].
  eapply rtc_l; [|apply rtc_refl].
  apply (step_determineAttackResult demo_sizes expandCells
           (determineAttackResult demo_player (attack_at 0 0)).2 ∅
           (attack_at 1 0)).
Defined.
